(** * AssistantService: the conversation session bridge

    A shallow embedding of [src/main/services/assistantService/index.ts].

    The service is a single mutable object ([this]) whose methods and
    listener closures run on one event loop.  They are embedded as
    computations in a state-and-exception monad over a [World] holding the
    service object, the process-wide [global.appConfig], the listener tables
    of the three event emitters the service registers closures on, and the
    trace of every externally visible effect, in program order. *)

From Stdlib Require Import List String Ascii Bool Arith ZArith Lia.
From Stdlib Require Import Strings.Byte.
Import ListNotations.

Set Implicit Arguments.

(** ** Values *)

(** A Node [Buffer], by value: its bytes. *)
Definition Buffer := list byte.

(** [Buffer.from(data)] allocates a buffer holding a copy of the bytes. *)
Definition Buffer_from (data : list byte) : Buffer := data.

(** A thrown JavaScript [Error], identified by its message. *)
Definition JsError := string.

(** How a call completes: it returns, or it throws. *)
Inductive Completion (A : Type) : Type :=
| Normal (a : A)
| Throw (e : JsError).
Arguments Normal {A} a.
Arguments Throw {A} e.

(** Object identities of the adapter, of a conversation and of the callback
    the authentication layer hands to the token-input relay. *)
Definition DelegateId := nat.
Definition ConversationId := nat.
Definition CallbackId := nat.

(** The double-quote character, which the adapter error message contains. *)
Definition dquote : string := String (ascii_of_nat 34) EmptyString.

(** ** Configuration ([./types], [global.appConfig]) *)

Record AudioConfig := {
  encodingIn : string;
  sampleRateIn : Z;
  encodingOut : string;
  sampleRateOut : Z
}.

Record AuthConfig := {
  keyFilePath : string;
  savedTokensPath : string
}.

Record ConversationConfig := {
  audio : AudioConfig;
  lang : string;
  deviceModelId : string;
  deviceId : string;
  textQuery : option string;
  isNew : bool;
  screen_isOn : bool
}.

Record AssistantServiceConfig := {
  auth : AuthConfig;
  conversation_config : ConversationConfig
}.

(** The fields of [global.appConfig] the service reads. *)
Record AppConfig := {
  app_keyFilePath : string;
  app_savedTokensPath : string;
  language : string;
  forceNewConversation : bool;
  enableMicOnImmediateResponse : bool
}.

(** ** Event payloads *)

Record TranscriptionObject := {
  transcription : string;
  done : bool
}.

Record ScreenData := {
  format : string;
  data : Buffer
}.

(** Messages to the renderer ([MainIpcBroker.sendIpcMessageToRenderer]):
    one constructor per [assistant:*] channel the service publishes on. *)
Inductive RendererMessage : Type :=
| stopAudioResponsePlayback
| transcriptionMessage (t : TranscriptionObject)
| screenDataMessage (fmt : string) (text : string)
| endOfUtterance
| conversationEnded
| startMic
| showOauthTokenPrompt (authUrl : string).

(** Messages from the renderer ([MainIpcBroker.onRendererEmit]). *)
Inductive RendererEvent : Type :=
| invoke (query : option string)
| micAudioData (audioBuffer : list byte)
| endConversation
| oauthCode (code : string).

(** Events of a conversation object. *)
Inductive ConversationEvent : Type :=
| audio_data (d : list byte)
| transcription_event (t : TranscriptionObject)
| screen_data (sd : ScreenData)
| end_of_utterance
| ended (error : option JsError) (shouldContinueConversation : bool)
| conversation_error (error : JsError).

(** Events of the adapter ([GoogleAssistant]) object. *)
Inductive DelegateEvent : Type :=
| ready
| started (c : ConversationId)
| delegate_error (error : JsError).

(** ** Handlers ([./assistantServiceEventHandler])

    Host callbacks.  Their result is never read; what the service can
    observe of a call is only whether it returned or threw. *)
Record AssistantServiceEventHandlers := {
  onQuery : string -> Completion unit;
  onScreenData : string -> Completion unit;
  onAudioData : Buffer -> Completion unit;
  onConversationEnded : unit -> Completion unit
}.

(** ** The service object *)

Record AssistantService := {
  config : AssistantServiceConfig;
  assistantApiDelegate : option DelegateId;
  conversation : option ConversationId;
  handlers : AssistantServiceEventHandlers
}.

(** ** Listener closures

    Every closure the source registers captures [this] only (the OAuth one
    also captures its callback), so a closure is identified by the place in
    the source that creates it. *)
Inductive IpcListener : Type :=
| InvokeListener
| MicAudioDataListener
| EndConversationListener
| OauthCodeListener (oauthValidationCallback : CallbackId).

Inductive DelegateListener : Type :=
| ReadyListener
| StartedListener
| DelegateErrorListener.

Inductive ConversationListener : Type :=
| AudioDataListener
| TranscriptionListener
| ScreenDataListener
| EndOfUtteranceListener
| EndedListener
| ConversationErrorListener.

(** ** Effects visible outside the service *)
Inductive Effect : Type :=
| SendToRenderer (m : RendererMessage)
| CallOnQuery (q : string)
| CallOnScreenData (s : string)
| CallOnAudioData (b : Buffer)
| CallOnConversationEnded
| DelegateStart (d : DelegateId) (c : ConversationConfig)
| ConversationWrite (c : ConversationId) (b : Buffer)
| ConversationEnd (c : ConversationId)
| ConsoleLog (message : string)
| ConsoleError (items : list string)
| CallOauthValidation (cb : CallbackId) (code : string).

(** ** The world *)
Record World := {
  this : AssistantService;
  appConfig : AppConfig;
  ipcMain : list IpcListener;
  delegateListeners : list (DelegateId * DelegateListener);
  conversationListeners : list (ConversationId * ConversationListener);
  trace : list Effect
}.

Definition set_this (f : AssistantService -> AssistantService) (w : World) : World :=
  {| this := f (this w); appConfig := appConfig w; ipcMain := ipcMain w;
     delegateListeners := delegateListeners w;
     conversationListeners := conversationListeners w; trace := trace w |}.

Definition with_textQuery (q : option string) (c : ConversationConfig) : ConversationConfig :=
  {| audio := audio c; lang := lang c; deviceModelId := deviceModelId c;
     deviceId := deviceId c; textQuery := q; isNew := isNew c;
     screen_isOn := screen_isOn c |}.

Definition set_textQuery (q : option string) (s : AssistantService) : AssistantService :=
  {| config := {| auth := auth (config s);
                  conversation_config := with_textQuery q (conversation_config (config s)) |};
     assistantApiDelegate := assistantApiDelegate s;
     conversation := conversation s; handlers := handlers s |}.

Definition set_assistantApiDelegate (d : option DelegateId) (s : AssistantService) : AssistantService :=
  {| config := config s; assistantApiDelegate := d;
     conversation := conversation s; handlers := handlers s |}.

Definition set_conversation (c : option ConversationId) (s : AssistantService) : AssistantService :=
  {| config := config s; assistantApiDelegate := assistantApiDelegate s;
     conversation := c; handlers := handlers s |}.

Definition set_handlers (h : AssistantServiceEventHandlers) (s : AssistantService) : AssistantService :=
  {| config := config s; assistantApiDelegate := assistantApiDelegate s;
     conversation := conversation s; handlers := h |}.

(** ** The monad: state that survives a throw *)
Definition Js (A : Type) : Type := World -> Completion A * World.

Definition ret {A} (a : A) : Js A := fun w => (Normal a, w).

Definition bind {A B} (m : Js A) (k : A -> Js B) : Js B :=
  fun w => match m w with
           | (Normal a, w') => k a w'
           | (Throw e, w') => (Throw e, w')
           end.

Definition throw {A} (e : JsError) : Js A := fun w => (Throw e, w).

(** [try { body } catch (error) { handler }] *)
Definition try_catch {A} (body : Js A) (handler : JsError -> Js A) : Js A :=
  fun w => match body w with
           | (Normal a, w') => (Normal a, w')
           | (Throw e, w') => handler e w'
           end.

Declare Scope js_scope.
Delimit Scope js_scope with js.
Notation "x <- m ;; k" := (bind m (fun x => k))
  (at level 61, m at next level, right associativity) : js_scope.
Notation "m ;; k" := (bind m (fun _ => k))
  (at level 61, right associativity) : js_scope.
Local Open Scope js_scope.

Definition get : Js World := fun w => (Normal w, w).

Definition modify (f : World -> World) : Js unit := fun w => (Normal tt, f w).

(** Completes the way [c] does. *)
Definition complete {A} (c : Completion A) : Js A := fun w => (c, w).

(** The world with the effects [es] appended to its trace. *)
Definition log (es : list Effect) (w : World) : World :=
  {| this := this w; appConfig := appConfig w; ipcMain := ipcMain w;
     delegateListeners := delegateListeners w;
     conversationListeners := conversationListeners w;
     trace := trace w ++ es |}.

Definition emit_effect (e : Effect) : Js unit := modify (log [e]).

(** What a computation added to the trace on its way from [w] to [w']. *)
Definition new_effects (w w' : World) : list Effect :=
  skipn (List.length (trace w)) (trace w').

Definition outcome {A} (r : Completion A * World) : Completion A := fst r.
Definition after {A} (r : Completion A * World) : World := snd r.

(** ** Projections of a trace *)

Fixpoint published (t : list Effect) : list RendererMessage :=
  match t with
  | [] => []
  | SendToRenderer m :: t' => m :: published t'
  | _ :: t' => published t'
  end.

Fixpoint onQuery_calls (t : list Effect) : list string :=
  match t with
  | [] => []
  | CallOnQuery q :: t' => q :: onQuery_calls t'
  | _ :: t' => onQuery_calls t'
  end.

Fixpoint onAudioData_calls (t : list Effect) : list Buffer :=
  match t with
  | [] => []
  | CallOnAudioData b :: t' => b :: onAudioData_calls t'
  | _ :: t' => onAudioData_calls t'
  end.

Fixpoint onConversationEnded_calls (t : list Effect) : nat :=
  match t with
  | [] => 0
  | CallOnConversationEnded :: t' => S (onConversationEnded_calls t')
  | _ :: t' => onConversationEnded_calls t'
  end.

Fixpoint start_commands (t : list Effect) : list ConversationConfig :=
  match t with
  | [] => []
  | DelegateStart _ c :: t' => c :: start_commands t'
  | _ :: t' => start_commands t'
  end.

Fixpoint console_errors (t : list Effect) : list (list string) :=
  match t with
  | [] => []
  | ConsoleError items :: t' => items :: console_errors t'
  | _ :: t' => console_errors t'
  end.

(** The codes callback [cb] was invoked with, in order. *)
Fixpoint oauth_validations (cb : CallbackId) (t : list Effect) : list string :=
  match t with
  | [] => []
  | CallOauthValidation cb' code :: t' =>
      if Nat.eqb cb' cb then code :: oauth_validations cb t'
      else oauth_validations cb t'
  | _ :: t' => oauth_validations cb t'
  end.

Definition is_conversationEnded (m : RendererMessage) : bool :=
  match m with conversationEnded => true | _ => false end.

Definition is_InvokeListener (l : IpcListener) : bool :=
  match l with InvokeListener => true | _ => false end.

(** ** JavaScript coercions used by the source *)

(** Truthiness of a [string | undefined]: only a non-empty string passes
    [if (textQuery)]. *)
Definition truthy (s : option string) : bool :=
  match s with
  | Some (String _ _) => true
  | _ => false
  end.

(** [query ?? ''] *)
Definition nullish_default (s : option string) : string :=
  match s with
  | Some q => q
  | None => EmptyString
  end.

(** ** The notification channel ([main/ipc/main/mainIpcBroker]) *)

(** Modelled from the spec: [MainIpcBroker.sendIpcMessageToRenderer], whose
    source is not part of the service file.  Publishing hands one message to
    the presentation layer; the service reads nothing back. *)
Definition sendIpcMessageToRenderer (m : RendererMessage) : Js unit :=
  emit_effect (SendToRenderer m).

(** Modelled from the spec: [MainIpcBroker.onRendererEmit], whose source is
    not part of the service file.  A subscription is a listener added to the
    channel's list; it stays registered, so the listeners registered during
    [initialize] serve every later command and registering twice stacks a
    duplicate. *)
Definition onRendererEmit (l : IpcListener) : Js unit :=
  modify (fun w =>
    {| this := this w; appConfig := appConfig w; ipcMain := ipcMain w ++ [l];
       delegateListeners := delegateListeners w;
       conversationListeners := conversationListeners w; trace := trace w |}).

(** ** Event emitters of the adapter library *)

(** [assistantApiDelegate.on(name, listener)] *)
Definition delegate_on (d : DelegateId) (l : DelegateListener) : Js unit :=
  modify (fun w =>
    {| this := this w; appConfig := appConfig w; ipcMain := ipcMain w;
       delegateListeners := delegateListeners w ++ [(d, l)];
       conversationListeners := conversationListeners w; trace := trace w |}).

(** [conversation.on(name, listener)] *)
Definition conversation_on (c : ConversationId) (l : ConversationListener) : Js unit :=
  modify (fun w =>
    {| this := this w; appConfig := appConfig w; ipcMain := ipcMain w;
       delegateListeners := delegateListeners w;
       conversationListeners := conversationListeners w ++ [(c, l)];
       trace := trace w |}).

(** [emitter.emit]: the listeners run in registration order; a throw leaves
    the remaining ones unrun and reaches whoever emitted. *)
Fixpoint run_listeners {L : Type} (body : L -> Js unit) (ls : list L) : Js unit :=
  match ls with
  | [] => ret tt
  | l :: ls' => body l ;; run_listeners body ls'
  end.

(** ** Calls to the host handlers: [this.handlers.onX(...)] *)

Definition call_onQuery (q : string) : Js unit :=
  w <- get ;; emit_effect (CallOnQuery q) ;; complete (onQuery (handlers (this w)) q).

Definition call_onScreenData (s : string) : Js unit :=
  w <- get ;; emit_effect (CallOnScreenData s) ;; complete (onScreenData (handlers (this w)) s).

Definition call_onAudioData (b : Buffer) : Js unit :=
  w <- get ;; emit_effect (CallOnAudioData b) ;; complete (onAudioData (handlers (this w)) b).

Definition call_onConversationEnded : Js unit :=
  w <- get ;; emit_effect CallOnConversationEnded ;;
  complete (onConversationEnded (handlers (this w)) tt).

Definition console_log (message : string) : Js unit := emit_effect (ConsoleLog message).
Definition console_error (items : list string) : Js unit := emit_effect (ConsoleError items).

(** ** class AssistantService *)

Definition noop_handlers : AssistantServiceEventHandlers :=
  {| onQuery := fun _ => Normal tt;
     onScreenData := fun _ => Normal tt;
     onAudioData := fun _ => Normal tt;
     onConversationEnded := fun _ => Normal tt |}.

(** [constructor()] *)
Definition constructor (g : AppConfig) : AssistantService :=
  {| config :=
       {| auth := {| keyFilePath := app_keyFilePath g;
                     savedTokensPath := app_savedTokensPath g |};
          conversation_config :=
            {| audio := {| encodingIn := "LINEAR16"; sampleRateIn := 16000;
                           encodingOut := "MP3"; sampleRateOut := 24000 |};
               lang := language g;
               deviceModelId := EmptyString;
               deviceId := EmptyString;
               textQuery := None;
               isNew := forceNewConversation g;
               screen_isOn := true |} |};
     assistantApiDelegate := None;
     conversation := None;
     handlers := noop_handlers |}.

(** The process right after [new AssistantService()]. *)
Definition new_world (g : AppConfig) : World :=
  {| this := constructor g; appConfig := g; ipcMain := [];
     delegateListeners := []; conversationListeners := []; trace := [] |}.

Definition uninitialized_error : JsError :=
  ("Cannot trigger " ++ dquote ++ "start" ++ dquote
   ++ " event for assistant as the initialization failed")%string.

(** [invokeAssistant(textQuery?)].  The start command is recorded with the
    conversation configuration as it is when [start] is called. *)
Definition invokeAssistant (textQuery : option string) : Js unit :=
  w <- get ;;
  match assistantApiDelegate (this w) with
  | None => throw uninitialized_error
  | Some d =>
      (if truthy textQuery
       then modify (set_this (set_textQuery textQuery))
       else modify (set_this (set_textQuery None))) ;;
      w' <- get ;;
      emit_effect (DelegateStart d (conversation_config (config (this w'))))
  end.

(** [static tokenInputHandler(oauthValidationCallback, authUrl)] *)
Definition tokenInputHandler (oauthValidationCallback : CallbackId) (authUrl : string) : Js unit :=
  sendIpcMessageToRenderer (showOauthTokenPrompt authUrl) ;;
  onRendererEmit (OauthCodeListener oauthValidationCallback).

(** [handleConversation(conversation)] *)
Definition handleConversation (c : ConversationId) : Js unit :=
  modify (set_this (set_conversation (Some c))) ;;
  conversation_on c AudioDataListener ;;
  conversation_on c TranscriptionListener ;;
  conversation_on c ScreenDataListener ;;
  conversation_on c EndOfUtteranceListener ;;
  conversation_on c EndedListener ;;
  conversation_on c ConversationErrorListener.

(** [initialize(handlers)].  [newGoogleAssistant] is how
    [new GoogleAssistant(this.config.auth)] completes. *)
Definition initialize (hs : AssistantServiceEventHandlers)
    (newGoogleAssistant : AuthConfig -> Completion DelegateId) : Js unit :=
  try_catch
    (w <- get ;;
     d <- complete (newGoogleAssistant (auth (config (this w)))) ;;
     modify (set_this (set_assistantApiDelegate (Some d))) ;;
     modify (set_this (set_handlers hs)) ;;
     delegate_on d ReadyListener ;;
     delegate_on d StartedListener ;;
     delegate_on d DelegateErrorListener ;;
     console_log "Assistant Service initialized successfully" ;;
     onRendererEmit InvokeListener ;;
     onRendererEmit MicAudioDataListener ;;
     onRendererEmit EndConversationListener)
    (fun error => console_error ["Assistant initialization failed."%string; error]).

(** ** Listener bodies and event delivery *)

Section Relay.

(** [Buffer.prototype.toString()] of the runtime: the text a buffer decodes
    to. *)
Variable Buffer_toString : Buffer -> string.

(** The closures registered on the renderer channels, lines 81-98 and
    185-188. *)
Definition ipc_listener (ev : RendererEvent) (l : IpcListener) : Js unit :=
  match l, ev with
  | InvokeListener, invoke query =>
      sendIpcMessageToRenderer stopAudioResponsePlayback ;;
      invokeAssistant query ;;
      call_onQuery (nullish_default query)
  | MicAudioDataListener, micAudioData audioBuffer =>
      let buffer := Buffer_from audioBuffer in
      w <- get ;;
      match conversation (this w) with
      | Some c => emit_effect (ConversationWrite c buffer)
      | None => ret tt
      end
  | EndConversationListener, endConversation =>
      w <- get ;;
      match conversation (this w) with
      | Some c => emit_effect (ConversationEnd c)
      | None => ret tt
      end ;;
      modify (set_this (set_conversation None))
  | OauthCodeListener oauthValidationCallback, oauthCode code =>
      emit_effect (CallOauthValidation oauthValidationCallback code)
  | _, _ => ret tt
  end.

(** Whether a closure was registered on the channel the event arrives on. *)
Definition ipc_listens (ev : RendererEvent) (l : IpcListener) : bool :=
  match l, ev with
  | InvokeListener, invoke _ => true
  | MicAudioDataListener, micAudioData _ => true
  | EndConversationListener, endConversation => true
  | OauthCodeListener _, oauthCode _ => true
  | _, _ => false
  end.

(** The closures registered on a conversation object, lines 108-151. *)
Definition conversation_listener (ev : ConversationEvent) (l : ConversationListener) : Js unit :=
  match l, ev with
  | AudioDataListener, audio_data d =>
      let audioBuffer := Buffer_from d in
      call_onAudioData audioBuffer
  | TranscriptionListener, transcription_event transcriptionObject =>
      sendIpcMessageToRenderer (transcriptionMessage transcriptionObject) ;;
      if done transcriptionObject
      then call_onQuery (transcription transcriptionObject)
      else ret tt
  | ScreenDataListener, screen_data screenData =>
      sendIpcMessageToRenderer
        (screenDataMessage (format screenData) (Buffer_toString (data screenData))) ;;
      call_onScreenData (Buffer_toString (data screenData))
  | EndOfUtteranceListener, end_of_utterance =>
      sendIpcMessageToRenderer endOfUtterance
  | EndedListener, ended error shouldContinueConversation =>
      match error with
      | Some e => console_error [e]
      | None => ret tt
      end ;;
      sendIpcMessageToRenderer conversationEnded ;;
      call_onConversationEnded ;;
      w <- get ;;
      if shouldContinueConversation && enableMicOnImmediateResponse (appConfig w)
      then sendIpcMessageToRenderer startMic
      else ret tt
  | ConversationErrorListener, conversation_error error =>
      console_error [error]
  | _, _ => ret tt
  end.

Definition conversation_listens (ev : ConversationEvent) (l : ConversationListener) : bool :=
  match l, ev with
  | AudioDataListener, audio_data _ => true
  | TranscriptionListener, transcription_event _ => true
  | ScreenDataListener, screen_data _ => true
  | EndOfUtteranceListener, end_of_utterance => true
  | EndedListener, ended _ _ => true
  | ConversationErrorListener, conversation_error _ => true
  | _, _ => false
  end.

(** The closures registered on the adapter, lines 74-76. *)
Definition delegate_listener (ev : DelegateEvent) (l : DelegateListener) : Js unit :=
  match l, ev with
  | StartedListener, started c => handleConversation c
  | _, _ => ret tt
  end.

Definition delegate_listens (ev : DelegateEvent) (l : DelegateListener) : bool :=
  match l, ev with
  | ReadyListener, ready => true
  | StartedListener, started _ => true
  | DelegateErrorListener, delegate_error _ => true
  | _, _ => false
  end.

(** The listeners of one emitter object, in registration order. *)
Definition listeners_of {L : Type} (id : nat) (table : list (nat * L)) : list L :=
  map snd (filter (fun p => Nat.eqb (fst p) id) table).

(** The renderer sends a command. *)
Definition renderer_emit (ev : RendererEvent) : Js unit :=
  w <- get ;;
  run_listeners (ipc_listener ev) (filter (ipc_listens ev) (ipcMain w)).

(** Conversation object [c] emits an event. *)
Definition conversation_emit (c : ConversationId) (ev : ConversationEvent) : Js unit :=
  w <- get ;;
  run_listeners (conversation_listener ev)
    (filter (conversation_listens ev) (listeners_of c (conversationListeners w))).

(** Adapter object [d] emits an event. *)
Definition delegate_emit (d : DelegateId) (ev : DelegateEvent) : Js unit :=
  w <- get ;;
  run_listeners (delegate_listener ev)
    (filter (delegate_listens ev) (listeners_of d (delegateListeners w))).

(** Events of one conversation object delivered one after the other; each
    delivery starts from what the previous one left, whether it returned or
    threw. *)
Fixpoint deliver (c : ConversationId) (evs : list ConversationEvent) (w : World) : World :=
  match evs with
  | [] => w
  | ev :: evs' => deliver c evs' (after (conversation_emit c ev w))
  end.

(** Renderer commands delivered one after the other. *)
Fixpoint deliver_commands (evs : list RendererEvent) (w : World) : World :=
  match evs with
  | [] => w
  | ev :: evs' => deliver_commands evs' (after (renderer_emit ev w))
  end.

(** ** Everything that can happen to the service *)
Inductive Action : Type :=
| DoInitialize (hs : AssistantServiceEventHandlers)
               (newGoogleAssistant : AuthConfig -> Completion DelegateId)
| DoInvokeAssistant (textQuery : option string)
| DoHandleConversation (c : ConversationId)
| DoTokenInput (cb : CallbackId) (authUrl : string)
| FromRenderer (ev : RendererEvent)
| FromDelegate (d : DelegateId) (ev : DelegateEvent)
| FromConversation (c : ConversationId) (ev : ConversationEvent).

Definition perform (a : Action) : Js unit :=
  match a with
  | DoInitialize hs ctor => initialize hs ctor
  | DoInvokeAssistant q => invokeAssistant q
  | DoHandleConversation c => handleConversation c
  | DoTokenInput cb url => tokenInputHandler cb url
  | FromRenderer ev => renderer_emit ev
  | FromDelegate d ev => delegate_emit d ev
  | FromConversation c ev => conversation_emit c ev
  end.

Fixpoint run (acts : list Action) (w : World) : World :=
  match acts with
  | [] => w
  | a :: acts' => run acts' (after (perform a w))
  end.

(** The worlds the process can be in. *)
Definition reachable (w : World) : Prop :=
  exists g acts, w = run acts (new_world g).

End Relay.

(** ** Sample data for the concrete scenarios *)

Definition sample_appConfig (enableMic : bool) : AppConfig :=
  {| app_keyFilePath := "key.json"; app_savedTokensPath := "tokens.json";
     language := "en-US"; forceNewConversation := false;
     enableMicOnImmediateResponse := enableMic |}.

(** A decoder for the scenarios: one character per byte. *)
Definition latin1 (b : Buffer) : string := string_of_list_byte b.

(** An adapter constructor that succeeds, and one that throws. *)
Definition construct_ok (d : DelegateId) : AuthConfig -> Completion DelegateId :=
  fun _ => Normal d.
Definition construct_fails (e : JsError) : AuthConfig -> Completion DelegateId :=
  fun _ => Throw e.

(** Host handlers that all throw [e]. *)
Definition throwing_handlers (e : JsError) : AssistantServiceEventHandlers :=
  {| onQuery := fun _ => Throw e;
     onScreenData := fun _ => Throw e;
     onAudioData := fun _ => Throw e;
     onConversationEnded := fun _ => Throw e |}.

(** The listeners one call of [handleConversation] registers. *)
Definition all_conversation_listeners : list ConversationListener :=
  [AudioDataListener; TranscriptionListener; ScreenDataListener;
   EndOfUtteranceListener; EndedListener; ConversationErrorListener].

(** Conversation object [c] went through [handleConversation] once. *)
Definition registered_once (c : ConversationId) (w : World) : Prop :=
  listeners_of c (conversationListeners w) = all_conversation_listeners.

(** An initialized service with conversation [1] started. *)
Definition active_world (enableMic : bool) (hs : AssistantServiceEventHandlers) : World :=
  run latin1
    [DoInitialize hs (construct_ok 7); FromDelegate 7 (started 1)]
    (new_world (sample_appConfig enableMic)).

(** ** Vocabulary of the properties *)

(** A frame is a relation between the world a computation starts in and the
    world it leaves; the computation respects it when every run is related,
    whether it returns or throws. *)
Definition respects (R : World -> World -> Prop) {A : Type} (m : Js A) : Prop :=
  forall w, R w (after (m w)).

(** The trace frame: nothing but the trace changes. *)
Definition logs_only (w w' : World) : Prop := exists es, w' = log es w.

(** The wiring frame: the adapter reference and the renderer subscriptions
    stay as they are. *)
Definition same_wiring (w w' : World) : Prop :=
  assistantApiDelegate (this w') = assistantApiDelegate (this w) /\
  ipcMain w' = ipcMain w.

(** While the adapter reference is unset, no invoke listener is
    registered. *)
Definition wired_after_construction (w : World) : Prop :=
  assistantApiDelegate (this w) = None ->
  filter is_InvokeListener (ipcMain w) = [].

(** What the [ended] listener logs before it calls the handler. *)
Definition ended_prefix (error : option JsError) : list Effect :=
  match error with
  | Some e => [ConsoleError [e]]
  | None => []
  end ++ [SendToRenderer conversationEnded; CallOnConversationEnded].

(** The callbacks of the OAuth listeners among [ls], in registration
    order. *)
Fixpoint oauth_callbacks (ls : list IpcListener) : list CallbackId :=
  match ls with
  | [] => []
  | OauthCodeListener cb :: ls' => cb :: oauth_callbacks ls'
  | _ :: ls' => oauth_callbacks ls'
  end.

(** What one oauth-code command makes the callbacks [cbs] log. *)
Definition validations_of (code : string) (cbs : list CallbackId) : list Effect :=
  map (fun cb => CallOauthValidation cb code) cbs.

(** ** Vocabulary of the further properties *)

Fixpoint onScreenData_calls (t : list Effect) : list string :=
  match t with
  | [] => []
  | CallOnScreenData x :: t' => x :: onScreenData_calls t'
  | _ :: t' => onScreenData_calls t'
  end.

(** The writes to conversation input streams, in order. *)
Fixpoint conversation_writes (t : list Effect) : list (ConversationId * Buffer) :=
  match t with
  | [] => []
  | ConversationWrite c b :: t' => (c, b) :: conversation_writes t'
  | _ :: t' => conversation_writes t'
  end.

(** The conversations [end()] was called on, in order. *)
Fixpoint conversation_ends (t : list Effect) : list ConversationId :=
  match t with
  | [] => []
  | ConversationEnd c :: t' => c :: conversation_ends t'
  | _ :: t' => conversation_ends t'
  end.

Definition is_MicAudioDataListener (l : IpcListener) : bool :=
  match l with MicAudioDataListener => true | _ => false end.

(** The argument [invokeAssistant] stores as [textQuery]. *)
Definition stored_textQuery (q : option string) : option string :=
  if truthy q then q else None.

(** What one run of the invoke listener logs when nothing throws. *)
Definition invoke_round (d : DelegateId) (cfg : ConversationConfig) (q : option string)
  : list Effect :=
  [SendToRenderer stopAudioResponsePlayback;
   DelegateStart d (with_textQuery (stored_textQuery q) cfg);
   CallOnQuery (nullish_default q)].

(** Effects towards the presentation layer, the host handlers and the
    console, as opposed to commands to the adapter or a conversation. *)
Definition relay_effect (e : Effect) : bool :=
  match e with
  | SendToRenderer _ | CallOnQuery _ | CallOnScreenData _ | CallOnAudioData _
  | CallOnConversationEnded | ConsoleError _ => true
  | _ => false
  end.

(** The relay frame: only relay effects are added to the trace. *)
Definition relays_only (w w' : World) : Prop :=
  exists es, w' = log es w /\ forallb relay_effect es = true.

(** The adapter frame: a constructed adapter stays. *)
Definition keeps_adapter (w w' : World) : Prop :=
  assistantApiDelegate (this w) <> None -> assistantApiDelegate (this w') <> None.

(** Events, as opposed to calls of the service's methods. *)
Definition is_event (a : Action) : bool :=
  match a with
  | FromRenderer _ | FromDelegate _ _ | FromConversation _ _ => true
  | _ => false
  end.

(** No listener is registered on any emitter. *)
Definition unwired (w : World) : Prop :=
  ipcMain w = [] /\ delegateListeners w = [] /\ conversationListeners w = [].

(** The conversation configuration the constructor builds. *)
Definition constructed_config (g : AppConfig) : ConversationConfig :=
  conversation_config (config (constructor g)).

(** A start command carries the constructor's configuration, up to
    [textQuery]. *)
Definition start_as_constructed (g : AppConfig) (e : Effect) : Prop :=
  match e with
  | DelegateStart _ c => with_textQuery None c = constructed_config g
  | _ => True
  end.

(** The configuration is the constructor's up to [textQuery], and so was
    that of every start command so far. *)
Definition config_as_constructed (g : AppConfig) (w : World) : Prop :=
  auth (config (this w)) = auth (config (constructor g)) /\
  with_textQuery None (conversation_config (config (this w))) = constructed_config g /\
  Forall (start_as_constructed g) (trace w).

(** The configuration frame. *)
Definition keeps_config (g : AppConfig) (w w' : World) : Prop :=
  config_as_constructed g w -> config_as_constructed g w'.

(** OAuth prompts shown one after the other. *)
Fixpoint prompts (ps : list (CallbackId * string)) (w : World) : World :=
  match ps with
  | [] => w
  | (cb, authUrl) :: ps' => prompts ps' (after (tokenInputHandler cb authUrl w))
  end.

(** The sample service after [initialize] ran twice. *)
Definition twice_initialized_world : World :=
  run latin1
    [DoInitialize noop_handlers (construct_ok 7);
     DoInitialize noop_handlers (construct_ok 8)]
    (new_world (sample_appConfig false)).

(** * Properties *)

(** ** The trace and its projections *)

Lemma new_effects_log (es : list Effect) (w : World) :
  new_effects w (log es w) = es.
Proof.
  unfold new_effects, log; simpl.
  induction (trace w) as [|x t IH]; simpl; auto.
Qed.

Lemma new_effects_app (w w' : World) (es : list Effect) :
  trace w' = trace w ++ es -> new_effects w w' = es.
Proof.
  unfold new_effects. intros ->.
  induction (trace w) as [|x t IH]; simpl; auto.
Qed.

Lemma log_log (es1 es2 : list Effect) (w : World) :
  log es2 (log es1 w) = log (es1 ++ es2) w.
Proof. unfold log; simpl. now rewrite app_assoc. Qed.

Lemma log_nil (w : World) : log [] w = w.
Proof. destruct w; unfold log; simpl. now rewrite app_nil_r. Qed.

Lemma oauth_validations_app (cb : CallbackId) (t1 t2 : list Effect) :
  oauth_validations cb (t1 ++ t2) = oauth_validations cb t1 ++ oauth_validations cb t2.
Proof.
  induction t1 as [|e t1 IH]; simpl; auto.
  destruct e; simpl; auto.
  destruct (Nat.eqb cb0 cb); simpl; now rewrite IH.
Qed.

(** Unfolds the monad down to the world transformer. *)
Ltac js_unfold :=
  unfold sendIpcMessageToRenderer, onRendererEmit, call_onQuery, call_onScreenData,
    call_onAudioData, call_onConversationEnded, console_error, console_log,
    emit_effect, conversation_on, delegate_on, complete, throw, modify, get, bind, ret,
    outcome, after in *.

(** Setting the conversation reference to what it already is. *)
Lemma set_conversation_same (s : AssistantService) :
  set_conversation (conversation s) s = s.
Proof. now destruct s. Qed.

Lemma set_this_id (w : World) (f : AssistantService -> AssistantService) :
  f (this w) = this w -> set_this f w = w.
Proof. destruct w; unfold set_this; simpl. now intros ->. Qed.

(** ** Listener tables *)

Lemma listeners_of_app {L : Type} (id : nat) (t1 t2 : list (nat * L)) :
  listeners_of id (t1 ++ t2) = listeners_of id t1 ++ listeners_of id t2.
Proof. unfold listeners_of. now rewrite filter_app, map_app. Qed.

(** A first [handleConversation] on a conversation object leaves it with one
    listener of each kind. *)
Lemma handleConversation_registers (c : ConversationId) (w : World) :
  listeners_of c (conversationListeners w) = [] ->
  outcome (handleConversation c w) = Normal tt /\
  registered_once c (after (handleConversation c w)) /\
  conversation (this (after (handleConversation c w))) = Some c.
Proof.
  intros H. unfold handleConversation, registered_once. js_unfold. simpl.
  repeat rewrite listeners_of_app. rewrite H.
  unfold listeners_of; simpl. rewrite Nat.eqb_refl. simpl. auto.
Qed.

(** A successful [initialize] sets the adapter and the handlers, registers
    the three adapter listeners and subscribes to the three commands. *)
Lemma initialize_success (hs : AssistantServiceEventHandlers)
    (ctor : AuthConfig -> Completion DelegateId) (d : DelegateId) (w : World) :
  ctor (auth (config (this w))) = Normal d ->
  let r := initialize hs ctor w in
  outcome r = Normal tt /\
  assistantApiDelegate (this (after r)) = Some d /\
  handlers (this (after r)) = hs /\
  conversation (this (after r)) = conversation (this w) /\
  ipcMain (after r) =
    ipcMain w ++ [InvokeListener; MicAudioDataListener; EndConversationListener] /\
  delegateListeners (after r) =
    delegateListeners w ++
    [(d, ReadyListener); (d, StartedListener); (d, DelegateErrorListener)].
Proof.
  intros H r. subst r. unfold initialize, try_catch. js_unfold. rewrite H. simpl.
  repeat rewrite <- app_assoc. repeat split.
Qed.

(** ** invokeAssistant *)

Lemma truthy_Some (q : string) : q <> EmptyString -> truthy (Some q) = true.
Proof. destruct q; simpl; congruence. Qed.

Lemma invokeAssistant_initialized (d : DelegateId) (q : option string) (w : World) :
  assistantApiDelegate (this w) = Some d ->
  invokeAssistant q w =
    (Normal tt,
     let q' := if truthy q then q else None in
     log [DelegateStart d (with_textQuery q' (conversation_config (config (this w))))]
       (set_this (set_textQuery q') w)).
Proof.
  intros H. unfold invokeAssistant. js_unfold. rewrite H.
  destruct (truthy q); reflexivity.
Qed.

Lemma invokeAssistant_uninitialized (q : option string) (w : World) :
  assistantApiDelegate (this w) = None ->
  invokeAssistant q w = (Throw uninitialized_error, w).
Proof. intros H. unfold invokeAssistant. js_unfold. now rewrite H. Qed.

(** ** Frames that are preorders compose along a computation *)

Section Frame.

Variable R : World -> World -> Prop.
Hypothesis R_refl : forall w, R w w.
Hypothesis R_trans : forall w1 w2 w3, R w1 w2 -> R w2 w3 -> R w1 w3.

Lemma respects_ret {A : Type} (a : A) : respects R (ret a).
Proof. intros w. apply R_refl. Qed.

Lemma respects_throw {A : Type} (e : JsError) : respects R (@throw A e).
Proof. intros w. apply R_refl. Qed.

Lemma respects_complete {A : Type} (c : Completion A) : respects R (complete c).
Proof. intros w. apply R_refl. Qed.

Lemma respects_get : respects R get.
Proof. intros w. apply R_refl. Qed.

Lemma respects_bind {A B : Type} (m : Js A) (k : A -> Js B) :
  respects R m -> (forall a, respects R (k a)) -> respects R (bind m k).
Proof.
  intros Hm Hk w. unfold bind, after.
  specialize (Hm w). unfold after in Hm.
  destruct (m w) as [[a|e] w1]; simpl in *; auto.
  eapply R_trans; [exact Hm|]. apply Hk.
Qed.

Lemma respects_run_listeners {L : Type} (body : L -> Js unit) (ls : list L) :
  (forall l, respects R (body l)) -> respects R (run_listeners body ls).
Proof.
  intros Hb. induction ls as [|l ls IH]; simpl.
  - apply respects_ret.
  - apply respects_bind; auto.
Qed.

End Frame.

(** Breaks a computation into its primitive steps, for the frame whose
    reflexivity and transitivity are [rf] and [tr]. *)
Ltac frame_step rf tr :=
  match goal with
  | |- respects _ (ret _) => eapply respects_ret; exact rf
  | |- respects _ (throw _) => eapply respects_throw; exact rf
  | |- respects _ (complete _) => eapply respects_complete; exact rf
  | |- respects _ get => eapply respects_get; exact rf
  | |- respects _ (run_listeners _ _) =>
      eapply respects_run_listeners; [exact rf | exact tr | intros ?]
  | |- respects _ (bind _ _) => eapply respects_bind; [exact tr | | intros ?]
  | |- respects _ (if ?b then _ else _) => destruct b
  | |- respects _ (match ?x with _ => _ end) => destruct x
  end.

Ltac frame_steps rf tr := repeat frame_step rf tr.

(** *** The trace frame: nothing but the trace changes *)

Lemma logs_only_refl (w : World) : logs_only w w.
Proof. exists []. symmetry. apply log_nil. Qed.

Lemma logs_only_trans (w1 w2 w3 : World) :
  logs_only w1 w2 -> logs_only w2 w3 -> logs_only w1 w3.
Proof.
  intros [es1 ->] [es2 ->]. exists (es1 ++ es2). apply log_log.
Qed.

Lemma emit_effect_logs_only (e : Effect) : respects logs_only (emit_effect e).
Proof. intros w. now exists [e]. Qed.

(** *** The wiring frame: the adapter reference and the renderer
    subscriptions stay as they are *)

Lemma same_wiring_refl (w : World) : same_wiring w w.
Proof. now split. Qed.

Lemma same_wiring_trans (w1 w2 w3 : World) :
  same_wiring w1 w2 -> same_wiring w2 w3 -> same_wiring w1 w3.
Proof. intros [H1 H2] [H3 H4]. split; congruence. Qed.

Lemma logs_only_same_wiring (w w' : World) : logs_only w w' -> same_wiring w w'.
Proof. intros [es ->]. now split. Qed.

Ltac logs_steps := frame_steps logs_only_refl logs_only_trans.
Ltac wiring_steps := frame_steps same_wiring_refl same_wiring_trans.

Lemma emit_effect_same_wiring (e : Effect) : respects same_wiring (emit_effect e).
Proof. intros w. now split. Qed.

Create HintDb frames.
#[local] Hint Resolve emit_effect_logs_only emit_effect_same_wiring : frames.

Section RelayFrames.

Variable Buffer_toString : Buffer -> string.

(** A conversation listener publishes, logs and calls handlers; it writes
    no field of the service and registers nothing. *)
Lemma conversation_listener_logs_only (ev : ConversationEvent) (l : ConversationListener) :
  respects logs_only (conversation_listener Buffer_toString ev l).
Proof.
  unfold conversation_listener, call_onAudioData, call_onQuery, call_onScreenData,
    call_onConversationEnded, sendIpcMessageToRenderer, console_error.
  destruct l, ev; logs_steps; auto with frames.
Qed.

Lemma conversation_emit_logs_only (c : ConversationId) (ev : ConversationEvent) :
  respects logs_only (conversation_emit Buffer_toString c ev).
Proof.
  unfold conversation_emit. logs_steps.
  apply conversation_listener_logs_only.
Qed.

End RelayFrames.

(** ** What keeps the wiring *)

Lemma invokeAssistant_same_wiring (q : option string) :
  respects same_wiring (invokeAssistant q).
Proof.
  unfold invokeAssistant. wiring_steps; auto with frames;
    intros w; split; reflexivity.
Qed.

Lemma handleConversation_same_wiring (c : ConversationId) :
  respects same_wiring (handleConversation c).
Proof.
  unfold handleConversation. wiring_steps; intros w; split; reflexivity.
Qed.

Lemma ipc_listener_same_wiring (ev : RendererEvent) (l : IpcListener) :
  respects same_wiring (ipc_listener ev l).
Proof.
  unfold ipc_listener, call_onQuery, sendIpcMessageToRenderer.
  destruct l, ev; wiring_steps; auto with frames;
    try apply invokeAssistant_same_wiring; intros w; split; reflexivity.
Qed.

Lemma renderer_emit_same_wiring (ev : RendererEvent) :
  respects same_wiring (renderer_emit ev).
Proof.
  unfold renderer_emit. wiring_steps. apply ipc_listener_same_wiring.
Qed.

Lemma delegate_emit_same_wiring (d : DelegateId) (ev : DelegateEvent) :
  respects same_wiring (delegate_emit d ev).
Proof.
  unfold delegate_emit, delegate_listener. wiring_steps.
  apply handleConversation_same_wiring.
Qed.

(** The adapter's "started" event, on an adapter whose listeners were
    registered by one [initialize], runs [handleConversation]: a conversation
    object not seen before becomes the active one, with one listener of each
    kind. *)
Lemma started_event_registers (d : DelegateId) (c : ConversationId) (w : World) :
  listeners_of d (delegateListeners w) =
    [ReadyListener; StartedListener; DelegateErrorListener] ->
  listeners_of c (conversationListeners w) = [] ->
  let r := delegate_emit d (started c) w in
  outcome r = Normal tt /\
  registered_once c (after r) /\
  conversation (this (after r)) = Some c.
Proof.
  intros Hd Hc r.
  assert (E : r = bind (handleConversation c) (fun _ => ret tt) w).
  { subst r. unfold delegate_emit, bind at 1, get. now rewrite Hd. }
  rewrite E. clear E r.
  destruct (handleConversation_registers c w Hc) as (Ho & Hr & Hs).
  unfold bind, ret. unfold outcome, after in *.
  destruct (handleConversation c w) as [[[]|e] w1]; simpl in *;
    [auto | discriminate].
Qed.

(** ** Subscriptions exist only behind a constructed adapter *)

Lemma wired_same_wiring (w w' : World) :
  same_wiring w w' -> wired_after_construction w -> wired_after_construction w'.
Proof.
  intros [Hd Hi] H. unfold wired_after_construction. rewrite Hd, Hi. exact H.
Qed.

Lemma wired_new_world (g : AppConfig) : wired_after_construction (new_world g).
Proof. intros _. reflexivity. Qed.

Lemma wired_initialize (hs : AssistantServiceEventHandlers)
    (ctor : AuthConfig -> Completion DelegateId) (w : World) :
  wired_after_construction w ->
  wired_after_construction (after (initialize hs ctor w)).
Proof.
  intros H. unfold initialize, try_catch. js_unfold.
  destruct (ctor (auth (config (this w)))) as [d|e]; simpl.
  - intros Hd. discriminate Hd.
  - exact H.
Qed.

Lemma wired_tokenInputHandler (cb : CallbackId) (authUrl : string) (w : World) :
  wired_after_construction w ->
  wired_after_construction (after (tokenInputHandler cb authUrl w)).
Proof.
  intros H Hd. unfold tokenInputHandler in *. js_unfold. simpl in *.
  rewrite filter_app, (H Hd). reflexivity.
Qed.

Section Reachability.

Variable Buffer_toString : Buffer -> string.

Lemma wired_perform (a : Action) (w : World) :
  wired_after_construction w ->
  wired_after_construction (after (perform Buffer_toString a w)).
Proof.
  intros H. destruct a; simpl.
  - now apply wired_initialize.
  - eapply wired_same_wiring; [apply invokeAssistant_same_wiring | exact H].
  - eapply wired_same_wiring; [apply handleConversation_same_wiring | exact H].
  - now apply wired_tokenInputHandler.
  - eapply wired_same_wiring; [apply renderer_emit_same_wiring | exact H].
  - eapply wired_same_wiring; [apply delegate_emit_same_wiring | exact H].
  - eapply wired_same_wiring; [|exact H].
    apply logs_only_same_wiring, conversation_emit_logs_only.
Qed.

Lemma wired_run (acts : list Action) (w : World) :
  wired_after_construction w ->
  wired_after_construction (run Buffer_toString acts w).
Proof.
  revert w. induction acts as [|a acts IH]; intros w H; simpl; auto.
  apply IH, wired_perform, H.
Qed.

Lemma reachable_wired (w : World) :
  reachable Buffer_toString w -> wired_after_construction w.
Proof.
  intros [g [acts ->]]. apply wired_run, wired_new_world.
Qed.

End Reachability.

Lemma filter_invoke_listens (q : option string) (ls : list IpcListener) :
  filter (ipc_listens (invoke q)) ls = filter is_InvokeListener ls.
Proof.
  apply filter_ext. intros l. now destruct l.
Qed.

(** ** What each conversation event does *)

Section RelayResults.

Variable Buffer_toString : Buffer -> string.

#[local] Abbreviation emit := (conversation_emit Buffer_toString).

Lemma registered_once_log (c : ConversationId) (es : list Effect) (w : World) :
  registered_once c w -> registered_once c (log es w).
Proof. exact (fun H => H). Qed.

Lemma emit_registered (c : ConversationId) (ev : ConversationEvent) (w : World) :
  registered_once c w ->
  emit c ev w =
    run_listeners (conversation_listener Buffer_toString ev)
      (filter (conversation_listens ev) all_conversation_listeners) w.
Proof. intros H. unfold conversation_emit, bind, get. now rewrite H. Qed.

Lemma emit_audio_data (c : ConversationId) (d : list byte) (w : World) :
  registered_once c w ->
  emit c (audio_data d) w =
    (onAudioData (handlers (this w)) d, log [CallOnAudioData d] w).
Proof.
  intros H. rewrite (emit_registered _ H). simpl. js_unfold. unfold Buffer_from.
  destruct (onAudioData (handlers (this w)) d) as [[]|e]; reflexivity.
Qed.

Lemma emit_transcription (c : ConversationId) (t : TranscriptionObject) (w : World) :
  registered_once c w ->
  emit c (transcription_event t) w =
    if done t
    then (onQuery (handlers (this w)) (transcription t),
          log [SendToRenderer (transcriptionMessage t); CallOnQuery (transcription t)] w)
    else (Normal tt, log [SendToRenderer (transcriptionMessage t)] w).
Proof.
  intros H. rewrite (emit_registered _ H). simpl. js_unfold.
  destruct (done t); simpl; [|reflexivity].
  rewrite log_log. simpl.
  destruct (onQuery (handlers (this w)) (transcription t)) as [[]|e]; reflexivity.
Qed.

Lemma emit_screen_data (c : ConversationId) (sd : ScreenData) (w : World) :
  registered_once c w ->
  emit c (screen_data sd) w =
    (onScreenData (handlers (this w)) (Buffer_toString (data sd)),
     log [SendToRenderer (screenDataMessage (format sd) (Buffer_toString (data sd)));
          CallOnScreenData (Buffer_toString (data sd))] w).
Proof.
  intros H. rewrite (emit_registered _ H). simpl. js_unfold. simpl.
  rewrite log_log. simpl.
  destruct (onScreenData (handlers (this w)) (Buffer_toString (data sd))) as [[]|e];
    reflexivity.
Qed.

Lemma emit_ended (c : ConversationId) (error : option JsError) (continue : bool) (w : World) :
  registered_once c w ->
  emit c (ended error continue) w =
    match onConversationEnded (handlers (this w)) tt with
    | Normal _ =>
        (Normal tt,
         log (ended_prefix error ++
              if continue && enableMicOnImmediateResponse (appConfig w)
              then [SendToRenderer startMic] else []) w)
    | Throw e => (Throw e, log (ended_prefix error) w)
    end.
Proof.
  intros H. rewrite (emit_registered _ H). simpl. js_unfold. unfold ended_prefix.
  destruct error as [err|]; simpl;
    destruct (onConversationEnded (handlers (this w)) tt) as [[]|e]; simpl;
    repeat rewrite log_log; simpl; try reflexivity;
    destruct (continue && enableMicOnImmediateResponse (appConfig w));
    simpl; repeat rewrite log_log; reflexivity.
Qed.

Lemma deliver_audio_trace (c : ConversationId) (bs : list (list byte)) (w : World) :
  registered_once c w ->
  deliver Buffer_toString c (map audio_data bs) w = log (map CallOnAudioData bs) w.
Proof.
  revert w. induction bs as [|b bs IH]; intros w H; simpl.
  - symmetry. apply log_nil.
  - rewrite (emit_audio_data _ H). unfold after. simpl.
    rewrite IH by (apply registered_once_log, H).
    apply log_log.
Qed.

End RelayResults.

Lemma onAudioData_calls_map (bs : list Buffer) :
  onAudioData_calls (map CallOnAudioData bs) = bs.
Proof. induction bs as [|b bs IH]; simpl; congruence. Qed.

(** * The conversation event relay *)

Section RelayClaims.

Variable Buffer_toString : Buffer -> string.

#[local] Abbreviation emit := (conversation_emit Buffer_toString).

(** C1, as the code has it: an "ended" event of any conversation object
    leaves the service's [conversation] reference exactly as it was, so the
    reference of a started conversation is still set after its turn ended
    (here: conversation 1 of the sample service).  Only the end-conversation
    command clears it. *)
Theorem ended_event_keeps_conversation_reference :
  (forall (c : ConversationId) (error : option JsError) (continue : bool) (w : World),
      conversation (this (after (emit c (ended error continue) w))) =
      conversation (this w)) /\
  conversation
    (this (after (conversation_emit latin1 1 (ended None false)
                    (active_world false noop_handlers)))) = Some 1.
Proof.
  split; [|reflexivity].
  intros c error continue w.
  destruct (conversation_emit_logs_only Buffer_toString c (ended error continue) w)
    as [es ->].
  reflexivity.
Qed.

(** C2: on an "ended" event the service publishes the conversation-ended
    notification once and calls [handlers.onConversationEnded] once, logs the
    error exactly when one is present, and, the handler having returned,
    completes normally and publishes the start-microphone notification if
    and only if [shouldContinueConversation] is true and
    [enableMicOnImmediateResponse] is enabled. *)
Theorem ended_event_notifications
    (c : ConversationId) (error : option JsError) (continue : bool) (w : World) :
  registered_once c w ->
  let r := emit c (ended error continue) w in
  let es := new_effects w (after r) in
  trace (after r) = trace w ++ es /\
  filter is_conversationEnded (published es) = [conversationEnded] /\
  onConversationEnded_calls es = 1 /\
  console_errors es = match error with Some e => [[e]] | None => [] end /\
  (onConversationEnded (handlers (this w)) tt = Normal tt ->
   outcome r = Normal tt /\
   published es =
     conversationEnded ::
     (if continue && enableMicOnImmediateResponse (appConfig w) then [startMic] else []) /\
   (In startMic (published es) <->
    continue = true /\ enableMicOnImmediateResponse (appConfig w) = true)).
Proof.
  intros H r es. subst es r. rewrite (emit_ended _ _ _ H).
  destruct (onConversationEnded (handlers (this w)) tt) as [[]|e];
    unfold after, outcome; simpl; rewrite new_effects_log;
    destruct error as [err|], continue,
      (enableMicOnImmediateResponse (appConfig w)); simpl;
    repeat split; try reflexivity; try discriminate; intros; intuition congruence.
Qed.

(** C3: on a transcription event the transcription object is published as
    it is; [handlers.onQuery] is called once, with the transcribed text,
    when [done] is true, and not at all when it is false. *)
Theorem transcription_event_relay
    (c : ConversationId) (t : TranscriptionObject) (w : World) :
  registered_once c w ->
  let es := new_effects w (after (emit c (transcription_event t) w)) in
  published es = [transcriptionMessage t] /\
  (done t = true -> onQuery_calls es = [transcription t]) /\
  (done t = false -> onQuery_calls es = []).
Proof.
  intros H es. subst es. rewrite (emit_transcription _ _ H).
  destruct (done t); unfold after; simpl; rewrite new_effects_log; simpl;
    repeat split; intros; congruence.
Qed.

(** C6, amended: when the handler called for an adapter event throws, the
    exception leaves the listener and reaches the emitter; nothing of the
    service object, of the subscriptions or of the listener tables changes,
    and what the listener does after the handler call (the start-microphone
    notification of "ended") is skipped. *)
Theorem throwing_handler_propagates (c : ConversationId) (e : JsError) (w : World) :
  registered_once c w ->
  (forall d, onAudioData (handlers (this w)) d = Throw e ->
     outcome (emit c (audio_data d) w) = Throw e) /\
  (forall t, done t = true -> onQuery (handlers (this w)) (transcription t) = Throw e ->
     outcome (emit c (transcription_event t) w) = Throw e) /\
  (forall sd, onScreenData (handlers (this w)) (Buffer_toString (data sd)) = Throw e ->
     outcome (emit c (screen_data sd) w) = Throw e) /\
  (forall error continue, onConversationEnded (handlers (this w)) tt = Throw e ->
     outcome (emit c (ended error continue) w) = Throw e /\
     ~ In startMic (published (new_effects w (after (emit c (ended error continue) w))))) /\
  (forall ev, let w' := after (emit c ev w) in
     this w' = this w /\ ipcMain w' = ipcMain w /\
     conversationListeners w' = conversationListeners w /\
     delegateListeners w' = delegateListeners w).
Proof.
  intros H. split; [|split; [|split; [|split]]].
  - intros d Hd. now rewrite (emit_audio_data _ _ H), <- Hd.
  - intros t Ht Hq. now rewrite (emit_transcription _ _ H), Ht, <- Hq.
  - intros sd Hs. now rewrite (emit_screen_data _ _ H), <- Hs.
  - intros error continue He. rewrite (emit_ended _ _ _ H), He.
    unfold after, outcome; simpl. rewrite new_effects_log.
    split; [reflexivity|].
    destruct error; simpl; intuition discriminate.
  - intros ev w'. subst w'.
    destruct (conversation_emit_logs_only Buffer_toString c ev w) as [es Hes].
    rewrite Hes. repeat split.
Qed.

(** C8: the audio-data events of a started conversation reach
    [handlers.onAudioData] one call per event, with the same bytes, in the
    order received; the relay does nothing else with them. *)
Theorem audio_data_pass_through (c : ConversationId) (bs : list (list byte)) (w : World) :
  registered_once c w ->
  let es := new_effects w (deliver Buffer_toString c (map audio_data bs) w) in
  es = map CallOnAudioData bs /\ onAudioData_calls es = bs.
Proof.
  intros H es. subst es. rewrite (deliver_audio_trace _ _ H), new_effects_log.
  split; [reflexivity | apply onAudioData_calls_map].
Qed.

End RelayClaims.

(** * The session manager *)

(** ** The renderer commands *)

Lemma run_endConversation_idle (ls : list IpcListener) (w : World) :
  conversation (this w) = None ->
  run_listeners (ipc_listener endConversation) (filter (ipc_listens endConversation) ls) w
  = (Normal tt, w).
Proof.
  intros H. induction ls as [|l ls IH]; simpl; [reflexivity|].
  destruct l; simpl; auto.
  unfold bind at 1. simpl. js_unfold. rewrite H. simpl.
  rewrite set_this_id; [exact IH|].
  rewrite <- H. apply set_conversation_same.
Qed.

Lemma run_endConversation_active (c : ConversationId) (ls : list IpcListener) (w : World) :
  conversation (this w) = Some c ->
  In EndConversationListener ls ->
  run_listeners (ipc_listener endConversation) (filter (ipc_listens endConversation) ls) w
  = (Normal tt, set_this (set_conversation None) (log [ConversationEnd c] w)).
Proof.
  intros H. induction ls as [|l ls IH]; simpl; [intros []|].
  intros [Hl|Hin].
  - subst l. simpl. unfold bind at 1. simpl. js_unfold. rewrite H. simpl.
    apply (run_endConversation_idle ls
             (set_this (set_conversation None) (log [ConversationEnd c] w))).
    reflexivity.
  - destruct l; simpl; auto.
    unfold bind at 1. simpl. js_unfold. rewrite H. simpl.
    apply (run_endConversation_idle ls
             (set_this (set_conversation None) (log [ConversationEnd c] w))).
    reflexivity.
Qed.

Lemma run_oauthCode (code : string) (ls : list IpcListener) (w : World) :
  run_listeners (ipc_listener (oauthCode code)) (filter (ipc_listens (oauthCode code)) ls) w
  = (Normal tt, log (validations_of code (oauth_callbacks ls)) w).
Proof.
  revert w. induction ls as [|l ls IH]; intros w; simpl.
  - now rewrite log_nil.
  - destruct l; simpl; auto.
    unfold bind at 1. simpl. js_unfold. rewrite IH. now rewrite log_log.
Qed.

Lemma oauth_callbacks_app (l1 l2 : list IpcListener) :
  oauth_callbacks (l1 ++ l2) = oauth_callbacks l1 ++ oauth_callbacks l2.
Proof.
  induction l1 as [|l l1 IH]; simpl; auto.
  destruct l; simpl; auto. now rewrite IH.
Qed.

Lemma oauth_validations_other (cb : CallbackId) (code : string) (cbs : list CallbackId) :
  ~ In cb cbs -> oauth_validations cb (validations_of code cbs) = [].
Proof.
  induction cbs as [|x cbs IH]; simpl; auto.
  intros Hn. destruct (Nat.eqb_spec x cb) as [->|Hne].
  - exfalso. apply Hn. now left.
  - apply IH. intros Hin. apply Hn. now right.
Qed.

Lemma oauth_validations_registered_once
    (cb : CallbackId) (code : string) (cbs : list CallbackId) :
  ~ In cb cbs -> oauth_validations cb (validations_of code (cbs ++ [cb])) = [code].
Proof.
  intros Hn. unfold validations_of. rewrite map_app, oauth_validations_app.
  fold (validations_of code cbs). rewrite (@oauth_validations_other cb code cbs Hn).
  simpl. now rewrite Nat.eqb_refl.
Qed.

Lemma deliver_oauth_codes (cb : CallbackId) (cbs : list CallbackId)
    (codes : list string) (w : World) :
  oauth_callbacks (ipcMain w) = cbs ++ [cb] ->
  ~ In cb cbs ->
  exists es, deliver_commands (map oauthCode codes) w = log es w /\
             oauth_validations cb es = codes.
Proof.
  intros Hw Hn. revert w Hw. induction codes as [|code codes IH]; intros w Hw; simpl.
  - exists []. now rewrite log_nil.
  - unfold renderer_emit, bind, get. rewrite run_oauthCode. unfold after; simpl.
    destruct (IH (log (validations_of code (oauth_callbacks (ipcMain w))) w) Hw)
      as [es [Hes Hv]].
    exists (validations_of code (oauth_callbacks (ipcMain w)) ++ es). split.
    + rewrite Hes. apply log_log.
    + rewrite oauth_validations_app, Hv, Hw.
      now rewrite (@oauth_validations_registered_once cb code cbs Hn).
Qed.

Lemma initialize_failure (hs : AssistantServiceEventHandlers)
    (ctor : AuthConfig -> Completion DelegateId) (e : JsError) (w : World) :
  ctor (auth (config (this w))) = Throw e ->
  initialize hs ctor w =
    (Normal tt, log [ConsoleError ["Assistant initialization failed."%string; e]] w).
Proof.
  intros H. unfold initialize, try_catch. js_unfold. now rewrite H.
Qed.

(** ** invokeAssistant *)

(** C4: with the adapter constructed, [invokeAssistant] with a non-empty
    string issues one start command whose configuration carries that string
    as [textQuery]; with no argument or the empty string it issues one start
    command whose [textQuery] is unset; so a microphone invocation that
    follows a text invocation starts with [textQuery] unset. *)
Theorem invokeAssistant_textQuery (d : DelegateId) (w : World) :
  assistantApiDelegate (this w) = Some d ->
  let cfg := conversation_config (config (this w)) in
  (forall q, q <> EmptyString ->
     let r := invokeAssistant (Some q) w in
     outcome r = Normal tt /\
     textQuery (conversation_config (config (this (after r)))) = Some q /\
     new_effects w (after r) = [DelegateStart d (with_textQuery (Some q) cfg)]) /\
  (forall q0, q0 = None \/ q0 = Some EmptyString ->
     let r := invokeAssistant q0 w in
     outcome r = Normal tt /\
     textQuery (conversation_config (config (this (after r)))) = None /\
     new_effects w (after r) = [DelegateStart d (with_textQuery None cfg)]) /\
  (forall q, q <> EmptyString ->
     let w1 := after (invokeAssistant (Some q) w) in
     let w2 := after (invokeAssistant None w1) in
     map textQuery (start_commands (new_effects w w2)) = [Some q; None] /\
     map textQuery (start_commands (new_effects w1 w2)) = [None]).
Proof.
  intros H cfg. subst cfg. split; [|split].
  - intros q Hq r. subst r. rewrite (invokeAssistant_initialized _ _ H).
    rewrite (truthy_Some Hq). unfold outcome, after; simpl.
    repeat split.
    apply new_effects_app. reflexivity.
  - intros q0 Hq0 r. subst r. rewrite (invokeAssistant_initialized _ _ H).
    assert (Ht : truthy q0 = false) by (destruct Hq0 as [->| ->]; reflexivity).
    rewrite Ht. unfold outcome, after; simpl.
    repeat split.
    apply new_effects_app. reflexivity.
  - intros q Hq.
    pose (w1 := log [DelegateStart d
                       (with_textQuery (Some q) (conversation_config (config (this w))))]
                  (set_this (set_textQuery (Some q)) w)).
    assert (E1 : after (invokeAssistant (Some q) w) = w1).
    { rewrite (invokeAssistant_initialized _ _ H), (truthy_Some Hq). reflexivity. }
    assert (H1 : assistantApiDelegate (this w1) = Some d) by exact H.
    pose (w2 := log [DelegateStart d
                       (with_textQuery None (conversation_config (config (this w1))))]
                  (set_this (set_textQuery None) w1)).
    assert (E2 : after (invokeAssistant None w1) = w2).
    { rewrite (invokeAssistant_initialized _ _ H1). reflexivity. }
    cbv zeta. rewrite E1, E2. split.
    + rewrite (@new_effects_app w w2
                 [DelegateStart d
                    (with_textQuery (Some q) (conversation_config (config (this w))));
                  DelegateStart d
                    (with_textQuery None (conversation_config (config (this w1))))]).
      * reflexivity.
      * simpl. rewrite <- app_assoc. reflexivity.
    + rewrite (@new_effects_app w1 w2
                 [DelegateStart d
                    (with_textQuery None (conversation_config (config (this w1))))]);
        reflexivity.
Qed.

(** C5: while the adapter reference is unset, [invokeAssistant] throws the
    uninitialized error to its caller and leaves the whole world as it was:
    no start command, no change of configuration or session state. *)
Theorem uninitialized_invocation_throws (q : option string) (w : World) :
  assistantApiDelegate (this w) = None ->
  invokeAssistant q w = (Throw uninitialized_error, w).
Proof. apply invokeAssistant_uninitialized. Qed.

(** ** The token-input relay *)

(** C7, amended: for a prompt whose callback has no listener yet, the relay
    publishes one show-OAuth-prompt notification carrying the URL and adds
    one listener for the oauth-code command; that listener stays
    registered, so the callback is invoked once for every oauth-code
    command received afterwards, with that command's code, in order. *)
Theorem tokenInputHandler_relay (cb : CallbackId) (authUrl : string) (w : World) :
  ~ In cb (oauth_callbacks (ipcMain w)) ->
  let r := tokenInputHandler cb authUrl w in
  outcome r = Normal tt /\
  new_effects w (after r) = [SendToRenderer (showOauthTokenPrompt authUrl)] /\
  ipcMain (after r) = ipcMain w ++ [OauthCodeListener cb] /\
  forall codes : list string,
    oauth_validations cb
      (new_effects (after r) (deliver_commands (map oauthCode codes) (after r)))
    = codes.
Proof.
  intros Hn r. subst r. unfold tokenInputHandler. js_unfold. simpl.
  split; [reflexivity|]. split; [apply new_effects_log|]. split; [reflexivity|].
  intros codes.
  match goal with
  | |- context [deliver_commands _ ?w1] =>
      destruct (@deliver_oauth_codes cb (oauth_callbacks (ipcMain w)) codes w1)
        as [es [Hes Hv]]
  end.
  - simpl. now rewrite oauth_callbacks_app.
  - exact Hn.
  - rewrite Hes, new_effects_log. exact Hv.
Qed.

(** ** The end-conversation command *)

(** C9: with no active conversation the end-conversation command returns
    and leaves the world as it was (nothing published, nothing signalled);
    with an active conversation and the listener registered it signals end
    on that conversation once and clears the reference. *)
Theorem endConversation_command (w : World) :
  (conversation (this w) = None ->
   renderer_emit endConversation w = (Normal tt, w)) /\
  (forall c, conversation (this w) = Some c ->
     In EndConversationListener (ipcMain w) ->
     let r := renderer_emit endConversation w in
     outcome r = Normal tt /\
     new_effects w (after r) = [ConversationEnd c] /\
     conversation (this (after r)) = None).
Proof.
  split.
  - intros H. unfold renderer_emit, bind, get.
    now apply run_endConversation_idle.
  - intros c H Hin r. subst r. unfold renderer_emit, bind, get.
    rewrite (@run_endConversation_active c (ipcMain w) w H Hin).
    unfold outcome, after; simpl.
    repeat split. apply (new_effects_log [ConversationEnd c] w).
Qed.

(** ** The invoke command *)

Section InvokeCommand.

Variable Buffer_toString : Buffer -> string.

(** C10, amended: the body of the invoke listener is not atomic on
    failure: run while the adapter reference is unset it publishes the
    stop-audio-playback notification, then [invokeAssistant] throws and
    [handlers.onQuery] is not called.  But the listener is registered only
    after the adapter was constructed: in every world the process can reach
    with the adapter reference unset, the invoke command meets no listener
    and changes nothing. *)
Theorem invoke_command_without_adapter (q : option string) (w : World) :
  assistantApiDelegate (this w) = None ->
  ipc_listener (invoke q) InvokeListener w =
    (Throw uninitialized_error, log [SendToRenderer stopAudioResponsePlayback] w) /\
  (reachable Buffer_toString w -> renderer_emit (invoke q) w = (Normal tt, w)).
Proof.
  intros H. split.
  - simpl. unfold bind at 1. unfold sendIpcMessageToRenderer. js_unfold.
    now rewrite invokeAssistant_uninitialized.
  - intros Hr. unfold renderer_emit, bind, get.
    rewrite filter_invoke_listens.
    now rewrite (reachable_wired Hr H).
Qed.

End InvokeCommand.

(** * Concrete scenarios *)

(** The sample service after an "ended" event with an error, continuation
    requested and auto-continue enabled. *)
Lemma ended_event_notifications_witness :
  registered_once 1 (active_world true noop_handlers) /\
  published
    (new_effects (active_world true noop_handlers)
       (after (conversation_emit latin1 1 (ended (Some "boom"%string) true)
                 (active_world true noop_handlers))))
  = [conversationEnded; startMic].
Proof.
  split; [reflexivity|].
  destruct (@ended_event_notifications latin1 1 (Some "boom"%string) true
              (active_world true noop_handlers) eq_refl)
    as (_ & _ & _ & _ & Hreturned).
  destruct (Hreturned eq_refl) as (_ & Hpublished & _).
  exact Hpublished.
Defined.

(** A final transcription "T" on the sample service. *)
Lemma transcription_event_relay_witness :
  registered_once 1 (active_world false noop_handlers) /\
  onQuery_calls
    (new_effects (active_world false noop_handlers)
       (after (conversation_emit latin1 1
                 (transcription_event {| transcription := "T"%string; done := true |})
                 (active_world false noop_handlers))))
  = ["T"%string].
Proof.
  split; [reflexivity|].
  destruct (@transcription_event_relay latin1 1
              {| transcription := "T"%string; done := true |}
              (active_world false noop_handlers) eq_refl)
    as (_ & Hdone & _).
  exact (Hdone eq_refl).
Defined.

(** A text invocation followed by a microphone invocation. *)
Lemma invokeAssistant_textQuery_witness :
  assistantApiDelegate (this (active_world false noop_handlers)) = Some 7 /\
  map textQuery
    (start_commands
       (new_effects (active_world false noop_handlers)
          (after (invokeAssistant None
                    (after (invokeAssistant (Some "weather today"%string)
                              (active_world false noop_handlers)))))))
  = [Some "weather today"%string; None].
Proof.
  split; [reflexivity|].
  destruct (@invokeAssistant_textQuery 7 (active_world false noop_handlers) eq_refl)
    as (_ & _ & Hleak).
  destruct (Hleak "weather today"%string ltac:(discriminate)) as [Hboth _].
  exact Hboth.
Defined.

(** The service whose adapter construction failed. *)
Lemma uninitialized_invocation_throws_witness :
  let w := after (initialize noop_handlers (construct_fails "no key file"%string)
                    (new_world (sample_appConfig false))) in
  assistantApiDelegate (this w) = None /\
  invokeAssistant (Some "weather today"%string) w = (Throw uninitialized_error, w).
Proof.
  split; [reflexivity|].
  apply (@uninitialized_invocation_throws (Some "weather today"%string)
           (after (initialize noop_handlers (construct_fails "no key file"%string)
                     (new_world (sample_appConfig false))))).
  reflexivity.
Defined.

(** C6 fails on the code: with a host handler that throws, an audio-data
    event makes the relay's listener throw to the emitter. *)
Lemma throwing_handler_escapes_relay :
  let r := conversation_emit latin1 1 (audio_data [x01; x02])
             (active_world false (throwing_handlers "handler failed"%string)) in
  outcome r = Throw "handler failed"%string /\ outcome r <> Normal tt.
Proof. split; [reflexivity | discriminate]. Qed.

(** The sample service with handlers that throw, on an "ended" event. *)
Lemma throwing_handler_propagates_witness :
  registered_once 1 (active_world true (throwing_handlers "handler failed"%string)) /\
  outcome (conversation_emit latin1 1 (ended None true)
             (active_world true (throwing_handlers "handler failed"%string)))
  = Throw "handler failed"%string.
Proof.
  split; [reflexivity|].
  destruct (@throwing_handler_propagates latin1 1 "handler failed"%string
              (active_world true (throwing_handlers "handler failed"%string)) eq_refl)
    as (_ & _ & _ & Hended & _).
  destruct (Hended None true eq_refl) as [Hthrows _].
  exact Hthrows.
Defined.

(** C7 fails on the code: one prompt, two oauth-code commands, and the
    prompt's callback is invoked a second time. *)
Lemma oauth_callback_invoked_twice :
  let w1 := after (tokenInputHandler 3 "https://auth.example"%string
                     (new_world (sample_appConfig false))) in
  oauth_validations 3
    (new_effects w1 (deliver_commands [oauthCode "first"%string; oauthCode "second"%string] w1))
  = ["first"%string; "second"%string].
Proof. reflexivity. Qed.

(** One prompt on a fresh process, three codes submitted. *)
Lemma tokenInputHandler_relay_witness :
  let w1 := after (tokenInputHandler 3 "https://auth.example"%string
                     (new_world (sample_appConfig false))) in
  ~ In 3 (oauth_callbacks (ipcMain (new_world (sample_appConfig false)))) /\
  ipcMain w1 = [OauthCodeListener 3] /\
  oauth_validations 3
    (new_effects w1
       (deliver_commands
          (map oauthCode ["4/a"%string; "4/b"%string; "4/c"%string]) w1))
  = ["4/a"%string; "4/b"%string; "4/c"%string].
Proof.
  split; [intros []|].
  destruct (@tokenInputHandler_relay 3 "https://auth.example"%string
              (new_world (sample_appConfig false)) (fun H : False => H))
    as (_ & _ & Hsub & Hcodes).
  split; [exact Hsub|].
  exact (Hcodes ["4/a"%string; "4/b"%string; "4/c"%string]).
Defined.

(** Two audio chunks through the sample service. *)
Lemma audio_data_pass_through_witness :
  registered_once 1 (active_world false noop_handlers) /\
  onAudioData_calls
    (new_effects (active_world false noop_handlers)
       (deliver latin1 1 (map audio_data [[x01; x02]; [x03]])
          (active_world false noop_handlers)))
  = [[x01; x02]; [x03]].
Proof.
  split; [reflexivity|].
  destruct (@audio_data_pass_through latin1 1 [[x01; x02]; [x03]]
              (active_world false noop_handlers) eq_refl) as [_ Hcalls].
  exact Hcalls.
Defined.

(** The end-conversation command on the sample service, whose conversation
    1 is active. *)
Lemma endConversation_command_witness :
  conversation (this (active_world false noop_handlers)) = Some 1 /\
  In EndConversationListener (ipcMain (active_world false noop_handlers)) /\
  new_effects (active_world false noop_handlers)
    (after (renderer_emit endConversation (active_world false noop_handlers)))
  = [ConversationEnd 1].
Proof.
  split; [reflexivity|]. split; [simpl; auto|].
  destruct (endConversation_command (active_world false noop_handlers)) as [_ Hactive].
  destruct (Hactive 1 eq_refl ltac:(simpl; auto)) as (_ & Hsignal & _).
  exact Hsignal.
Defined.

(** C10 fails on the code: before [initialize], and after an [initialize]
    whose adapter construction threw, the invoke command publishes nothing
    and throws nothing. *)
Lemma invoke_before_construction_is_ignored :
  let w0 := new_world (sample_appConfig false) in
  let w1 := after (initialize noop_handlers (construct_fails "no key file"%string) w0) in
  assistantApiDelegate (this w0) = None /\
  assistantApiDelegate (this w1) = None /\
  renderer_emit (invoke (Some "hi"%string)) w0 = (Normal tt, w0) /\
  renderer_emit (invoke (Some "hi"%string)) w1 = (Normal tt, w1) /\
  published (new_effects w1 (after (renderer_emit (invoke (Some "hi"%string)) w1))) = [].
Proof. repeat split. Qed.

(** The invoke command after a failed [initialize]. *)
Lemma invoke_command_without_adapter_witness :
  let w := after (initialize noop_handlers (construct_fails "no key file"%string)
                    (new_world (sample_appConfig false))) in
  assistantApiDelegate (this w) = None /\
  reachable latin1 w /\
  renderer_emit (invoke (Some "hi"%string)) w = (Normal tt, w).
Proof.
  split; [reflexivity|].
  assert (Hr : reachable latin1
                 (after (initialize noop_handlers (construct_fails "no key file"%string)
                           (new_world (sample_appConfig false))))).
  { exists (sample_appConfig false),
      [DoInitialize noop_handlers (construct_fails "no key file"%string)].
    reflexivity. }
  split; [exact Hr|].
  destruct (@invoke_command_without_adapter latin1 (Some "hi"%string)
              (after (initialize noop_handlers (construct_fails "no key file"%string)
                        (new_world (sample_appConfig false)))) eq_refl)
    as [_ Hcommand].
  exact (Hcommand Hr).
Defined.

(** * Further properties of the service *)

(** ** initialize *)

(** X1: [initialize] never throws to its caller.  When the adapter
    constructor throws, the failure is logged and nothing else happens: the
    handlers passed in are not stored, no listener is registered, the adapter
    reference and the conversation stay as they were. *)
Theorem initialize_contains_failure (hs : AssistantServiceEventHandlers)
    (ctor : AuthConfig -> Completion DelegateId) (w : World) :
  outcome (initialize hs ctor w) = Normal tt /\
  (forall e, ctor (auth (config (this w))) = Throw e ->
     let w' := after (initialize hs ctor w) in
     this w' = this w /\ ipcMain w' = ipcMain w /\
     delegateListeners w' = delegateListeners w /\
     new_effects w w' = [ConsoleError ["Assistant initialization failed."%string; e]]).
Proof.
  split.
  - destruct (ctor (auth (config (this w)))) as [d|e] eqn:Hc.
    + apply (initialize_success hs ctor w Hc).
    + now rewrite (initialize_failure hs ctor w Hc).
  - intros e Hc w'. subst w'. rewrite (initialize_failure hs ctor w Hc).
    unfold after; simpl. repeat split. apply new_effects_log.
Qed.

Lemma initialize_contains_failure_witness :
  let w := new_world (sample_appConfig false) in
  construct_fails "no key file"%string (auth (config (this w))) = Throw "no key file"%string /\
  handlers (this (after (initialize (throwing_handlers "x"%string)
                           (construct_fails "no key file"%string) w)))
  = noop_handlers.
Proof.
  split; [reflexivity|].
  destruct (initialize_contains_failure (throwing_handlers "x"%string)
              (construct_fails "no key file"%string)
              (new_world (sample_appConfig false))) as [_ Hfail].
  destruct (Hfail "no key file"%string eq_refl) as [Hthis _].
  now rewrite Hthis.
Defined.

(** ** Adapter and renderer events *)

Lemma run_listeners_noop {L : Type} (body : L -> Js unit) (ls : list L) (w : World) :
  (forall l, body l w = (Normal tt, w)) ->
  run_listeners body ls w = (Normal tt, w).
Proof.
  intros Hb. induction ls as [|l ls IH]; simpl; [reflexivity|].
  unfold bind. now rewrite Hb.
Qed.

(** X2: the adapter's "ready" and "error" events do nothing at all, however
    many listeners are registered: nothing is logged or published and the
    world is unchanged. *)
Theorem adapter_ready_and_error_are_ignored (d : DelegateId) (e : JsError) (w : World) :
  delegate_emit d ready w = (Normal tt, w) /\
  delegate_emit d (delegate_error e) w = (Normal tt, w).
Proof.
  split; unfold delegate_emit, bind at 1, get;
    apply run_listeners_noop; intros l; now destruct l.
Qed.

Section Unwired.

Variable Buffer_toString : Buffer -> string.

Lemma unwired_event (a : Action) (w : World) :
  unwired w -> is_event a = true ->
  perform Buffer_toString a w = (Normal tt, w).
Proof.
  intros (Hi & Hd & Hc) Ha. destruct a; try discriminate Ha; simpl.
  - unfold renderer_emit, bind, get. now rewrite Hi.
  - unfold delegate_emit, bind, get. now rewrite Hd.
  - unfold conversation_emit, bind, get. now rewrite Hc.
Qed.

(** X3: until a method of the service is called, the service reacts to
    nothing: whatever renderer commands, adapter events and conversation
    events arrive while no listener is registered (as right after
    construction), the world stays exactly as it was. *)
Theorem events_before_wiring_do_nothing (acts : list Action) (w : World) :
  unwired w ->
  forallb is_event acts = true ->
  run Buffer_toString acts w = w.
Proof.
  intros Hu. induction acts as [|a acts IH]; simpl; [reflexivity|].
  intros H. apply andb_prop in H. destruct H as [Ha Hacts].
  rewrite (unwired_event a Hu Ha). unfold after; simpl. now apply IH.
Qed.

End Unwired.

Lemma events_before_wiring_do_nothing_witness :
  let w := new_world (sample_appConfig true) in
  let acts := [FromRenderer (invoke (Some "hi"%string));
               FromDelegate 7 (started 1);
               FromConversation 1 (ended None true);
               FromRenderer endConversation] in
  unwired w /\ forallb is_event acts = true /\ run latin1 acts w = w.
Proof.
  split; [repeat split|]. split; [reflexivity|].
  apply (@events_before_wiring_do_nothing latin1
           [FromRenderer (invoke (Some "hi"%string));
            FromDelegate 7 (started 1);
            FromConversation 1 (ended None true);
            FromRenderer endConversation]
           (new_world (sample_appConfig true))).
  - repeat split.
  - reflexivity.
Defined.

(** ** Microphone audio *)

Lemma filter_mic_listens (b : list byte) (ls : list IpcListener) :
  filter (ipc_listens (micAudioData b)) ls = filter is_MicAudioDataListener ls.
Proof. apply filter_ext. intros l. now destruct l. Qed.

Lemma micAudioData_idle (b : list byte) (w : World) :
  conversation (this w) = None ->
  renderer_emit (micAudioData b) w = (Normal tt, w).
Proof.
  intros H. unfold renderer_emit, bind at 1, get.
  apply run_listeners_noop. intros l. destruct l; try reflexivity.
  simpl. js_unfold. now rewrite H.
Qed.

Lemma deliver_micAudioData_idle (bs : list (list byte)) (w : World) :
  conversation (this w) = None ->
  deliver_commands (map micAudioData bs) w = w.
Proof.
  intros H. induction bs as [|b bs IH]; simpl; [reflexivity|].
  now rewrite (micAudioData_idle b w H).
Qed.

Lemma micAudioData_active (c : ConversationId) (b : list byte) (w : World) :
  conversation (this w) = Some c ->
  filter is_MicAudioDataListener (ipcMain w) = [MicAudioDataListener] ->
  renderer_emit (micAudioData b) w = (Normal tt, log [ConversationWrite c b] w).
Proof.
  intros H Hl. unfold renderer_emit, bind at 1, get.
  rewrite filter_mic_listens, Hl. simpl. js_unfold. now rewrite H.
Qed.

(** X4: microphone audio reaches the conversation the service holds, one
    write per command, same bytes, same order; while the service holds no
    conversation the audio is dropped and nothing at all happens. *)
Theorem micAudioData_feeds_the_held_conversation (bs : list (list byte)) (w : World) :
  (conversation (this w) = None ->
   deliver_commands (map micAudioData bs) w = w) /\
  (forall c, conversation (this w) = Some c ->
     filter is_MicAudioDataListener (ipcMain w) = [MicAudioDataListener] ->
     let w' := deliver_commands (map micAudioData bs) w in
     new_effects w w' = map (ConversationWrite c) bs /\
     conversation_writes (new_effects w w') = map (pair c) bs /\
     this w' = this w).
Proof.
  split; [apply deliver_micAudioData_idle|].
  intros c Hc Hl w'.
  assert (E : w' = log (map (ConversationWrite c) bs) w).
  { subst w'. revert w Hc Hl. induction bs as [|b bs IH]; intros w Hc Hl; simpl.
    - symmetry. apply log_nil.
    - rewrite (@micAudioData_active c b w Hc Hl). unfold after; simpl.
      rewrite (IH (log [ConversationWrite c b] w) Hc Hl). apply log_log. }
  rewrite E, new_effects_log. split; [reflexivity|]. split; [|reflexivity].
  clear. induction bs as [|b bs IH]; simpl; [reflexivity|].
  f_equal. exact IH.
Qed.

Lemma micAudioData_feeds_the_held_conversation_witness :
  conversation (this (active_world false noop_handlers)) = Some 1 /\
  filter is_MicAudioDataListener (ipcMain (active_world false noop_handlers))
  = [MicAudioDataListener] /\
  conversation_writes
    (new_effects (active_world false noop_handlers)
       (deliver_commands (map micAudioData [[x01]; [x02; x03]])
          (active_world false noop_handlers)))
  = [(1, [x01]); (1, [x02; x03])].
Proof.
  split; [reflexivity|]. split; [reflexivity|].
  destruct (micAudioData_feeds_the_held_conversation [[x01]; [x02; x03]]
              (active_world false noop_handlers)) as [_ Hactive].
  destruct (Hactive 1 eq_refl eq_refl) as (_ & Hwrites & _).
  exact Hwrites.
Defined.

(** X5: after the end-conversation command, microphone audio is dropped:
    whatever audio commands follow, nothing is written to any conversation
    and the world stays as the command left it. *)
Theorem micAudioData_after_endConversation_is_dropped
    (bs : list (list byte)) (w : World) :
  In EndConversationListener (ipcMain w) ->
  let w1 := after (renderer_emit endConversation w) in
  conversation (this w1) = None /\
  deliver_commands (map micAudioData bs) w1 = w1.
Proof.
  intros Hin w1.
  assert (Hc : conversation (this w1) = None).
  { subst w1. unfold renderer_emit, bind, get.
    destruct (conversation (this w)) as [c|] eqn:Hw.
    - now rewrite (@run_endConversation_active c (ipcMain w) w Hw Hin).
    - now rewrite (run_endConversation_idle (ipcMain w) w Hw). }
  split; [exact Hc | now apply deliver_micAudioData_idle].
Qed.

Lemma micAudioData_after_endConversation_is_dropped_witness :
  let w1 := after (renderer_emit endConversation (active_world false noop_handlers)) in
  In EndConversationListener (ipcMain (active_world false noop_handlers)) /\
  deliver_commands (map micAudioData [[x01]; [x02]]) w1 = w1.
Proof.
  split; [simpl; auto|].
  destruct (@micAudioData_after_endConversation_is_dropped [[x01]; [x02]]
              (active_world false noop_handlers) ltac:(simpl; auto)) as [_ Hdrop].
  exact Hdrop.
Defined.

(** ** Conversation objects *)

Lemma listeners_of_other {L : Type} (c c' : nat) (l : L) (t : list (nat * L)) :
  c <> c' -> listeners_of c (t ++ [(c', l)]) = listeners_of c t.
Proof.
  intros Hne. rewrite listeners_of_app. unfold listeners_of at 2. simpl.
  destruct (Nat.eqb_spec c' c) as [->|_]; [congruence|].
  simpl. apply app_nil_r.
Qed.

Lemma onConversationEnded_calls_app (t1 t2 : list Effect) :
  onConversationEnded_calls (t1 ++ t2) =
  onConversationEnded_calls t1 + onConversationEnded_calls t2.
Proof.
  induction t1 as [|e t1 IH]; simpl; auto.
  destruct e; simpl; auto.
Qed.

Lemma ended_prefix_calls (error : option JsError) :
  onConversationEnded_calls (ended_prefix error) = 1 /\
  forall b : bool,
    onConversationEnded_calls
      (ended_prefix error ++ if b then [SendToRenderer startMic] else []) = 1.
Proof.
  split; [now destruct error|].
  intros b. rewrite onConversationEnded_calls_app.
  destruct error, b; reflexivity.
Qed.

Section Conversations.

Variable Buffer_toString : Buffer -> string.

#[local] Abbreviation emit := (conversation_emit Buffer_toString).

(** X6: a second conversation handed to [handleConversation] while another
    is held takes the reference over, but the first one keeps its listeners:
    microphone audio now goes to the new conversation, and events the old one
    still emits are relayed to the handlers as before. *)
Theorem replaced_conversation_is_still_relayed
    (c1 c2 : ConversationId) (w : World) :
  registered_once c1 w ->
  listeners_of c2 (conversationListeners w) = [] ->
  let w' := after (handleConversation c2 w) in
  conversation (this w') = Some c2 /\
  registered_once c2 w' /\
  registered_once c1 w' /\
  (forall d, emit c1 (audio_data d) w' =
             (onAudioData (handlers (this w)) d, log [CallOnAudioData d] w')) /\
  (forall error continue,
     onConversationEnded_calls
       (new_effects w' (after (emit c1 (ended error continue) w'))) = 1).
Proof.
  intros H1 H2 w'.
  assert (Hne : c1 <> c2).
  { intros ->. unfold registered_once in H1. rewrite H2 in H1. discriminate H1. }
  destruct (handleConversation_registers c2 w H2) as (_ & Hr2 & Hc2).
  fold w' in Hr2, Hc2.
  assert (Hr1 : registered_once c1 w').
  { subst w'. unfold handleConversation, registered_once. js_unfold. simpl.
    repeat rewrite (listeners_of_other _ _ Hne). exact H1. }
  assert (Hh : handlers (this w') = handlers (this w)) by reflexivity.
  split; [exact Hc2|]. split; [exact Hr2|]. split; [exact Hr1|]. split.
  - intros d. rewrite (emit_audio_data Buffer_toString d Hr1). now rewrite Hh.
  - intros error continue.
    destruct (ended_prefix_calls error) as [Hp Hq].
    rewrite (emit_ended Buffer_toString error continue Hr1).
    destruct (onConversationEnded (handlers (this w')) tt) as [[]|e];
      unfold after; simpl; rewrite new_effects_log.
    + rewrite Hq. reflexivity.
    + exact Hp.
Qed.

End Conversations.

Lemma replaced_conversation_is_still_relayed_witness :
  let w' := after (handleConversation 2 (active_world false noop_handlers)) in
  registered_once 1 (active_world false noop_handlers) /\
  listeners_of 2 (conversationListeners (active_world false noop_handlers)) = [] /\
  conversation (this w') = Some 2 /\
  conversation_emit latin1 1 (audio_data [x01]) w'
  = (Normal tt, log [CallOnAudioData [x01]] w').
Proof.
  split; [reflexivity|]. split; [reflexivity|].
  destruct (@replaced_conversation_is_still_relayed latin1 1 2
              (active_world false noop_handlers) eq_refl eq_refl)
    as (Hc & _ & _ & Haudio & _).
  split; [exact Hc | exact (Haudio [x01])].
Defined.

(** ** The remaining conversation events *)

Section OtherEvents.

Variable Buffer_toString : Buffer -> string.

#[local] Abbreviation emit := (conversation_emit Buffer_toString).

(** X7: on a screen-data event the renderer message and
    [handlers.onScreenData] receive the same text, the decoded [data]; the
    message keeps the event's format, and the handler is called once, after
    the message was published. *)
Theorem screen_data_event_relay (c : ConversationId) (sd : ScreenData) (w : World) :
  registered_once c w ->
  let es := new_effects w (after (emit c (screen_data sd) w)) in
  exists text,
    text = Buffer_toString (data sd) /\
    es = [SendToRenderer (screenDataMessage (format sd) text); CallOnScreenData text] /\
    published es = [screenDataMessage (format sd) text] /\
    onScreenData_calls es = [text].
Proof.
  intros H es. subst es. rewrite (emit_screen_data Buffer_toString sd H).
  unfold after; simpl. rewrite new_effects_log.
  exists (Buffer_toString (data sd)). repeat split.
Qed.

(** X8: the end-of-utterance event publishes one end-of-utterance
    notification and the conversation's error event logs the error; neither
    calls a host handler, neither throws, whatever the handlers do, and
    neither touches the service object: an error does not end the turn. *)
Theorem end_of_utterance_and_error_events
    (c : ConversationId) (error : JsError) (w : World) :
  registered_once c w ->
  emit c end_of_utterance w = (Normal tt, log [SendToRenderer endOfUtterance] w) /\
  emit c (conversation_error error) w = (Normal tt, log [ConsoleError [error]] w).
Proof.
  intros H. split; rewrite (emit_registered Buffer_toString _ H); reflexivity.
Qed.

End OtherEvents.

Lemma screen_data_event_relay_witness :
  registered_once 1 (active_world false noop_handlers) /\
  onScreenData_calls
    (new_effects (active_world false noop_handlers)
       (after (conversation_emit latin1 1
                 (screen_data {| format := "HTML"; data := [x4f; x4b] |})
                 (active_world false noop_handlers))))
  = ["OK"%string].
Proof.
  split; [reflexivity|].
  destruct (@screen_data_event_relay latin1 1
              {| format := "HTML"; data := [x4f; x4b] |}
              (active_world false noop_handlers) eq_refl)
    as (text & Ht & _ & _ & Hcalls).
  rewrite Hcalls, Ht. reflexivity.
Defined.

Lemma end_of_utterance_and_error_events_witness :
  registered_once 1 (active_world false (throwing_handlers "x"%string)) /\
  outcome (conversation_emit latin1 1 (conversation_error "stream reset"%string)
             (active_world false (throwing_handlers "x"%string)))
  = Normal tt.
Proof.
  split; [reflexivity|].
  destruct (@end_of_utterance_and_error_events latin1 1 "stream reset"%string
              (active_world false (throwing_handlers "x"%string)) eq_refl)
    as [_ Herr].
  now rewrite Herr.
Defined.

(** ** The relay issues no commands *)

Lemma relays_only_refl (w : World) : relays_only w w.
Proof. exists []. split; [symmetry; apply log_nil | reflexivity]. Qed.

Lemma relays_only_trans (w1 w2 w3 : World) :
  relays_only w1 w2 -> relays_only w2 w3 -> relays_only w1 w3.
Proof.
  intros [es1 [-> H1]] [es2 [-> H2]]. exists (es1 ++ es2). split.
  - apply log_log.
  - rewrite forallb_app, H1, H2. reflexivity.
Qed.

Lemma emit_effect_relays_only (e : Effect) :
  relay_effect e = true -> respects relays_only (emit_effect e).
Proof. intros H w. exists [e]. simpl. now rewrite H. Qed.

Lemma relay_effects_no_commands (es : list Effect) :
  forallb relay_effect es = true ->
  start_commands es = [] /\ conversation_writes es = [] /\ conversation_ends es = [].
Proof.
  induction es as [|e es IH]; simpl; [auto|].
  intros H. apply andb_prop in H. destruct H as [He Hes].
  destruct e; simpl in *; try discriminate He; auto.
Qed.

Section RelayCommands.

Variable Buffer_toString : Buffer -> string.

Lemma conversation_listener_relays_only (ev : ConversationEvent) (l : ConversationListener) :
  respects relays_only (conversation_listener Buffer_toString ev l).
Proof.
  unfold conversation_listener, call_onAudioData, call_onQuery, call_onScreenData,
    call_onConversationEnded, sendIpcMessageToRenderer, console_error.
  destruct l, ev; frame_steps relays_only_refl relays_only_trans;
    now apply emit_effect_relays_only.
Qed.

Lemma deliver_relays_only (c : ConversationId) (evs : list ConversationEvent) (w : World) :
  relays_only w (deliver Buffer_toString c evs w).
Proof.
  revert w. induction evs as [|ev evs IH]; intros w; simpl.
  - apply relays_only_refl.
  - eapply relays_only_trans; [|apply IH].
    unfold conversation_emit.
    assert (Hr : respects relays_only
                   (bind get (fun w0 =>
                      run_listeners (conversation_listener Buffer_toString ev)
                        (filter (conversation_listens ev)
                           (listeners_of c (conversationListeners w0)))))).
    { frame_steps relays_only_refl relays_only_trans.
      apply conversation_listener_relays_only. }
    apply Hr.
Qed.

(** X9: the event relay never commands the adapter.  Whatever events a
    conversation emits, however its listeners are registered and whatever
    the handlers do, the service issues no start command (auto-continue only
    publishes the start-microphone notification), writes to no conversation,
    ends none, and its own fields and subscriptions stay as they were. *)
Theorem relay_issues_no_commands
    (c : ConversationId) (evs : list ConversationEvent) (w : World) :
  let w' := deliver Buffer_toString c evs w in
  let es := new_effects w w' in
  trace w' = trace w ++ es /\
  start_commands es = [] /\
  conversation_writes es = [] /\
  conversation_ends es = [] /\
  this w' = this w /\
  ipcMain w' = ipcMain w /\
  conversationListeners w' = conversationListeners w.
Proof.
  intros w' es. subst es w'.
  destruct (deliver_relays_only c evs w) as [es [-> Hes]].
  rewrite new_effects_log.
  destruct (relay_effects_no_commands es Hes) as (Hs & Hw & He).
  repeat split; assumption.
Qed.

End RelayCommands.

(** ** The invoke command *)

Lemma set_this_log (f : AssistantService -> AssistantService)
    (es : list Effect) (w : World) :
  set_this f (log es w) = log es (set_this f w).
Proof. reflexivity. Qed.

Lemma ipc_invoke_listener_returns (d : DelegateId) (q : option string) (w : World) :
  assistantApiDelegate (this w) = Some d ->
  ipc_listener (invoke q) InvokeListener w =
    (onQuery (handlers (this w)) (nullish_default q),
     log (invoke_round d (conversation_config (config (this w))) q)
       (set_this (set_textQuery (stored_textQuery q)) w)).
Proof.
  intros H. simpl. unfold bind at 1. unfold sendIpcMessageToRenderer at 1.
  unfold emit_effect at 1, modify at 1.
  unfold bind at 1.
  rewrite (@invokeAssistant_initialized d q (log [SendToRenderer stopAudioResponsePlayback] w) H).
  unfold call_onQuery. js_unfold. simpl.
  rewrite set_this_log. repeat rewrite log_log. simpl.
  unfold invoke_round, stored_textQuery.
  destruct (onQuery (handlers (this w)) (nullish_default q)) as [[]|e]; reflexivity.
Qed.

Lemma run_invoke_listeners (d : DelegateId) (q : option string)
    (ls : list IpcListener) (w : World) :
  assistantApiDelegate (this w) = Some d ->
  onQuery (handlers (this w)) (nullish_default q) = Normal tt ->
  exists w',
    run_listeners (ipc_listener (invoke q)) (filter is_InvokeListener ls) w
    = (Normal tt, w') /\
    trace w' =
      trace w ++
      List.concat (repeat (invoke_round d (conversation_config (config (this w))) q)
                (List.length (filter is_InvokeListener ls))).
Proof.
  revert w. induction ls as [|l ls IH]; intros w Hd Hq; simpl.
  - exists w. now rewrite app_nil_r.
  - destruct l;
      cbn [filter is_InvokeListener run_listeners List.length repeat List.concat];
      auto.
    unfold bind at 1. rewrite (ipc_invoke_listener_returns q w Hd), Hq.
    destruct (IH (log (invoke_round d (conversation_config (config (this w))) q)
                    (set_this (set_textQuery (stored_textQuery q)) w)) Hd Hq)
      as [w' [Hrun Htr]].
    exists w'. split; [exact Hrun|].
    rewrite Htr. simpl trace at 1. rewrite <- app_assoc. reflexivity.
Qed.

Lemma start_commands_app (t1 t2 : list Effect) :
  start_commands (t1 ++ t2) = start_commands t1 ++ start_commands t2.
Proof.
  induction t1 as [|e t1 IH]; simpl; auto.
  destruct e; simpl; auto. now rewrite IH.
Qed.

Lemma onQuery_calls_app (t1 t2 : list Effect) :
  onQuery_calls (t1 ++ t2) = onQuery_calls t1 ++ onQuery_calls t2.
Proof.
  induction t1 as [|e t1 IH]; simpl; auto.
  destruct e; simpl; auto. now rewrite IH.
Qed.

Lemma invoke_rounds_projections (d : DelegateId) (cfg : ConversationConfig)
    (q : option string) (n : nat) :
  start_commands (List.concat (repeat (invoke_round d cfg q) n))
  = repeat (with_textQuery (stored_textQuery q) cfg) n /\
  onQuery_calls (List.concat (repeat (invoke_round d cfg q) n))
  = repeat (nullish_default q) n.
Proof.
  induction n as [|n [IHs IHq]]; simpl; [auto|].
  now rewrite IHs, IHq.
Qed.

(** X10: listeners are never removed, so every successful [initialize]
    adds one more invoke listener, and one invoke command then runs them
    all: with [n] invoke listeners registered, the adapter constructed and
    [handlers.onQuery] returning, a single command issues [n] start commands
    and calls [handlers.onQuery] [n] times, with the query or the empty
    string. *)
Theorem invoke_command_runs_every_registration
    (d : DelegateId) (q : option string) (w : World) :
  assistantApiDelegate (this w) = Some d ->
  onQuery (handlers (this w)) (nullish_default q) = Normal tt ->
  let n := List.length (filter is_InvokeListener (ipcMain w)) in
  let r := renderer_emit (invoke q) w in
  outcome r = Normal tt /\
  start_commands (new_effects w (after r))
  = repeat (with_textQuery (stored_textQuery q) (conversation_config (config (this w)))) n /\
  onQuery_calls (new_effects w (after r)) = repeat (nullish_default q) n.
Proof.
  intros Hd Hq n r. subst r n.
  unfold renderer_emit, bind, get. rewrite filter_invoke_listens.
  destruct (run_invoke_listeners q (ipcMain w) w Hd Hq) as [w' [Hrun Htr]].
  rewrite Hrun. unfold outcome, after; simpl.
  rewrite (@new_effects_app w w' _ Htr).
  destruct (invoke_rounds_projections d (conversation_config (config (this w))) q
              (List.length (filter is_InvokeListener (ipcMain w)))) as [Hs Ho].
  now rewrite Hs, Ho.
Qed.

Lemma invoke_command_runs_every_registration_witness :
  assistantApiDelegate (this twice_initialized_world) = Some 8 /\
  List.length (filter is_InvokeListener (ipcMain twice_initialized_world)) = 2 /\
  onQuery_calls
    (new_effects twice_initialized_world
       (after (renderer_emit (invoke None) twice_initialized_world)))
  = [EmptyString; EmptyString] /\
  List.length
    (start_commands
       (new_effects twice_initialized_world
          (after (renderer_emit (invoke None) twice_initialized_world))))
  = 2.
Proof.
  split; [reflexivity|]. split; [reflexivity|].
  destruct (@invoke_command_runs_every_registration 8 None twice_initialized_world
              eq_refl eq_refl) as (_ & Hstarts & Hcalls).
  split; [exact Hcalls|]. rewrite Hstarts. reflexivity.
Defined.

(** X11: the invoke listener is not atomic when the handler fails: if
    [handlers.onQuery] throws, the stop-audio notification was published, the
    start command was issued and [textQuery] overwritten before the exception
    leaves the listener; listeners registered after it do not run. *)
Theorem invoke_command_with_throwing_onQuery
    (d : DelegateId) (q : option string) (e : JsError)
    (rest : list IpcListener) (w : World) :
  assistantApiDelegate (this w) = Some d ->
  onQuery (handlers (this w)) (nullish_default q) = Throw e ->
  filter is_InvokeListener (ipcMain w) = InvokeListener :: rest ->
  let r := renderer_emit (invoke q) w in
  outcome r = Throw e /\
  new_effects w (after r) = invoke_round d (conversation_config (config (this w))) q /\
  textQuery (conversation_config (config (this (after r)))) = stored_textQuery q.
Proof.
  intros Hd Hq Hl r.
  assert (E : r = (Throw e,
                   log (invoke_round d (conversation_config (config (this w))) q)
                     (set_this (set_textQuery (stored_textQuery q)) w))).
  { subst r. unfold renderer_emit, bind at 1, get. rewrite filter_invoke_listens, Hl.
    cbn [run_listeners]. unfold bind at 1.
    now rewrite (ipc_invoke_listener_returns q w Hd), Hq. }
  rewrite E. unfold outcome, after; simpl. repeat split.
  apply new_effects_app. reflexivity.
Qed.

Lemma invoke_command_with_throwing_onQuery_witness :
  let w := active_world false (throwing_handlers "handler failed"%string) in
  assistantApiDelegate (this w) = Some 7 /\
  filter is_InvokeListener (ipcMain w) = [InvokeListener] /\
  List.length (start_commands (new_effects w (after (renderer_emit (invoke None) w)))) = 1.
Proof.
  split; [reflexivity|]. split; [reflexivity|].
  destruct (@invoke_command_with_throwing_onQuery 7 None "handler failed"%string []
              (active_world false (throwing_handlers "handler failed"%string))
              eq_refl eq_refl eq_refl) as (_ & Heff & _).
  rewrite Heff. reflexivity.
Defined.

(** A text invocation through the renderer is echoed by the final
    transcription. *)
Section InvokeThenTranscription.

Variable Buffer_toString : Buffer -> string.

(** X12: [handlers.onQuery] hears a query twice in one turn: once from the
    invoke command that carries it and once more from the final
    transcription of the same text. *)
Theorem invoke_then_final_transcription_calls_onQuery_twice
    (d : DelegateId) (c : ConversationId) (q : string) (w : World) :
  assistantApiDelegate (this w) = Some d ->
  filter is_InvokeListener (ipcMain w) = [InvokeListener] ->
  registered_once c w ->
  onQuery (handlers (this w)) q = Normal tt ->
  let w1 := after (renderer_emit (invoke (Some q)) w) in
  let w2 := after (conversation_emit Buffer_toString c
                     (transcription_event {| transcription := q; done := true |}) w1) in
  onQuery_calls (new_effects w w2) = [q; q].
Proof.
  intros Hd Hl Hr Hq w1 w2.
  assert (E1 : w1 = log (invoke_round d (conversation_config (config (this w))) (Some q))
                      (set_this (set_textQuery (stored_textQuery (Some q))) w)).
  { subst w1. unfold renderer_emit, bind at 1, get. rewrite filter_invoke_listens, Hl.
    cbn [run_listeners]. unfold bind at 1.
    rewrite (ipc_invoke_listener_returns (Some q) w Hd). simpl nullish_default.
    now rewrite Hq. }
  assert (Hr1 : registered_once c w1) by (rewrite E1; exact Hr).
  assert (E2 : w2 = log [SendToRenderer
                           (transcriptionMessage {| transcription := q; done := true |});
                         CallOnQuery q] w1).
  { subst w2. rewrite (emit_transcription Buffer_toString _ Hr1). reflexivity. }
  rewrite E2, E1.
  erewrite new_effects_app.
  2:{ simpl. rewrite <- app_assoc. reflexivity. }
  reflexivity.
Qed.

End InvokeThenTranscription.

Lemma invoke_then_final_transcription_calls_onQuery_twice_witness :
  let w := active_world false noop_handlers in
  let w1 := after (renderer_emit (invoke (Some "turn on lights"%string)) w) in
  let w2 := after (conversation_emit latin1 1
                     (transcription_event
                        {| transcription := "turn on lights"; done := true |}) w1) in
  assistantApiDelegate (this w) = Some 7 /\
  filter is_InvokeListener (ipcMain w) = [InvokeListener] /\
  registered_once 1 w /\
  onQuery_calls (new_effects w w2) = ["turn on lights"%string; "turn on lights"%string].
Proof.
  split; [reflexivity|]. split; [reflexivity|]. split; [reflexivity|].
  apply (@invoke_then_final_transcription_calls_onQuery_twice latin1 7 1
           "turn on lights"%string (active_world false noop_handlers));
    reflexivity.
Defined.

(** ** The adapter, once constructed, stays *)

Lemma keeps_adapter_refl (w : World) : keeps_adapter w w.
Proof. exact (fun H => H). Qed.

Lemma keeps_adapter_trans (w1 w2 w3 : World) :
  keeps_adapter w1 w2 -> keeps_adapter w2 w3 -> keeps_adapter w1 w3.
Proof. unfold keeps_adapter. auto. Qed.

Lemma same_wiring_keeps_adapter (w w' : World) :
  same_wiring w w' -> keeps_adapter w w'.
Proof. intros [Hd _] H. now rewrite Hd. Qed.

Section AdapterStays.

Variable Buffer_toString : Buffer -> string.

Lemma perform_keeps_adapter (a : Action) (w : World) :
  keeps_adapter w (after (perform Buffer_toString a w)).
Proof.
  destruct a; simpl.
  - unfold initialize, try_catch. js_unfold.
    destruct (newGoogleAssistant (auth (config (this w)))) as [d|e]; simpl.
    + intros _. discriminate.
    + exact (fun H => H).
  - apply same_wiring_keeps_adapter, invokeAssistant_same_wiring.
  - apply same_wiring_keeps_adapter, handleConversation_same_wiring.
  - exact (fun H => H).
  - apply same_wiring_keeps_adapter, renderer_emit_same_wiring.
  - apply same_wiring_keeps_adapter, delegate_emit_same_wiring.
  - apply same_wiring_keeps_adapter, logs_only_same_wiring,
      conversation_emit_logs_only.
Qed.

Lemma run_keeps_adapter (acts : list Action) (w : World) :
  keeps_adapter w (run Buffer_toString acts w).
Proof.
  revert w. induction acts as [|a acts IH]; intros w; simpl.
  - apply keeps_adapter_refl.
  - eapply keeps_adapter_trans; [apply perform_keeps_adapter | apply IH].
Qed.

(** X13: nothing unsets the adapter.  After one [initialize] whose
    construction succeeded, whatever happens next (further calls, a later
    [initialize] that fails, commands, events, throwing handlers),
    [invokeAssistant] does not throw and issues its start command. *)
Theorem invokeAssistant_succeeds_forever
    (hs : AssistantServiceEventHandlers)
    (ctor : AuthConfig -> Completion DelegateId) (d : DelegateId)
    (acts : list Action) (q : option string) (w : World) :
  ctor (auth (config (this w))) = Normal d ->
  let w' := run Buffer_toString acts (after (initialize hs ctor w)) in
  outcome (invokeAssistant q w') = Normal tt /\
  List.length (start_commands (new_effects w' (after (invokeAssistant q w')))) = 1.
Proof.
  intros Hc w'.
  destruct (initialize_success hs ctor w Hc) as (_ & Hd & _).
  assert (Hw' : assistantApiDelegate (this w') <> None).
  { apply run_keeps_adapter. rewrite Hd. discriminate. }
  destruct (assistantApiDelegate (this w')) as [d'|] eqn:Hd'; [|congruence].
  rewrite (invokeAssistant_initialized q w' Hd').
  unfold outcome, after; simpl. split; [reflexivity|].
  erewrite new_effects_app; [|reflexivity]. reflexivity.
Qed.

End AdapterStays.

Lemma invokeAssistant_succeeds_forever_witness :
  let w' := run latin1
              [FromDelegate 7 (started 1);
               DoInitialize (throwing_handlers "x"%string)
                 (construct_fails "no key file"%string);
               FromRenderer endConversation]
              (after (initialize noop_handlers (construct_ok 7)
                        (new_world (sample_appConfig false)))) in
  construct_ok 7 (auth (config (this (new_world (sample_appConfig false))))) = Normal 7 /\
  outcome (invokeAssistant None w') = Normal tt.
Proof.
  split; [reflexivity|].
  destruct (@invokeAssistant_succeeds_forever latin1 noop_handlers (construct_ok 7) 7
              [FromDelegate 7 (started 1);
               DoInitialize (throwing_handlers "x"%string)
                 (construct_fails "no key file"%string);
               FromRenderer endConversation]
              None (new_world (sample_appConfig false)) eq_refl) as [Hout _].
  exact Hout.
Defined.

(** ** The configuration never drifts *)

Lemma keeps_config_refl (g : AppConfig) (w : World) : keeps_config g w w.
Proof. exact (fun H => H). Qed.

Lemma keeps_config_trans (g : AppConfig) (w1 w2 w3 : World) :
  keeps_config g w1 w2 -> keeps_config g w2 w3 -> keeps_config g w1 w3.
Proof. unfold keeps_config. auto. Qed.

Lemma emit_effect_keeps_config (g : AppConfig) (e : Effect) :
  start_as_constructed g e -> respects (keeps_config g) (emit_effect e).
Proof.
  intros He w (Ha & Hc & Ht). repeat split; auto.
  unfold emit_effect, modify, after; simpl.
  apply Forall_app. split; [exact Ht | now constructor].
Qed.

Lemma invokeAssistant_keeps_config (g : AppConfig) (q : option string) :
  respects (keeps_config g) (invokeAssistant q).
Proof.
  intros w (Ha & Hc & Ht).
  destruct (assistantApiDelegate (this w)) as [d|] eqn:Hd.
  - rewrite (invokeAssistant_initialized q w Hd). unfold after; simpl.
    repeat split; auto.
    apply Forall_app. split; [exact Ht|]. constructor; [exact Hc | constructor].
  - rewrite (invokeAssistant_uninitialized q w Hd). unfold after; simpl.
    repeat split; auto.
Qed.

Lemma initialize_keeps_config (g : AppConfig) (hs : AssistantServiceEventHandlers)
    (ctor : AuthConfig -> Completion DelegateId) :
  respects (keeps_config g) (initialize hs ctor).
Proof.
  intros w (Ha & Hc & Ht). unfold initialize, try_catch. js_unfold.
  destruct (ctor (auth (config (this w)))) as [d|e]; simpl;
    (repeat split; auto; apply Forall_app; split; [exact Ht|];
     constructor; [exact I | constructor]).
Qed.

Ltac config_steps g :=
  frame_steps (@keeps_config_refl g) (@keeps_config_trans g);
  try (apply emit_effect_keeps_config; exact I);
  try apply invokeAssistant_keeps_config;
  try (intros ? H; exact H).

Lemma tokenInputHandler_keeps_config (g : AppConfig) (cb : CallbackId) (authUrl : string) :
  respects (keeps_config g) (tokenInputHandler cb authUrl).
Proof.
  unfold tokenInputHandler, sendIpcMessageToRenderer, onRendererEmit.
  config_steps g.
Qed.

Lemma handleConversation_keeps_config (g : AppConfig) (c : ConversationId) :
  respects (keeps_config g) (handleConversation c).
Proof. unfold handleConversation, conversation_on. config_steps g. Qed.

Lemma renderer_emit_keeps_config (g : AppConfig) (ev : RendererEvent) :
  respects (keeps_config g) (renderer_emit ev).
Proof.
  unfold renderer_emit. config_steps g.
  unfold ipc_listener, call_onQuery, sendIpcMessageToRenderer.
  destruct l, ev; config_steps g.
Qed.

Lemma delegate_emit_keeps_config (g : AppConfig) (d : DelegateId) (ev : DelegateEvent) :
  respects (keeps_config g) (delegate_emit d ev).
Proof.
  unfold delegate_emit. config_steps g.
  unfold delegate_listener. destruct l, ev; config_steps g.
Qed.

Lemma starts_as_constructed (g : AppConfig) (t : list Effect) (c : ConversationConfig) :
  Forall (start_as_constructed g) t ->
  In c (start_commands t) ->
  with_textQuery None c = constructed_config g.
Proof.
  induction t as [|e t IH]; simpl; [intros _ []|].
  intros Hall Hin. inversion Hall as [|e' t' He Ht]; subst.
  destruct e; simpl in *; auto.
  destruct Hin as [<-|Hin]; auto.
Qed.

Section ConfigurationFixed.

Variable Buffer_toString : Buffer -> string.

Lemma conversation_emit_keeps_config (g : AppConfig) (c : ConversationId)
    (ev : ConversationEvent) :
  respects (keeps_config g) (conversation_emit Buffer_toString c ev).
Proof.
  unfold conversation_emit. config_steps g.
  unfold conversation_listener, call_onAudioData, call_onQuery, call_onScreenData,
    call_onConversationEnded, sendIpcMessageToRenderer, console_error.
  destruct l, ev; config_steps g.
Qed.

Lemma perform_keeps_config (g : AppConfig) (a : Action) :
  respects (keeps_config g) (perform Buffer_toString a).
Proof.
  destruct a; simpl.
  - apply initialize_keeps_config.
  - apply invokeAssistant_keeps_config.
  - apply handleConversation_keeps_config.
  - apply tokenInputHandler_keeps_config.
  - apply renderer_emit_keeps_config.
  - apply delegate_emit_keeps_config.
  - apply conversation_emit_keeps_config.
Qed.

Lemma run_config_as_constructed (g : AppConfig) (acts : list Action) (w : World) :
  config_as_constructed g w ->
  config_as_constructed g (run Buffer_toString acts w).
Proof.
  revert w. induction acts as [|a acts IH]; intros w H; simpl; auto.
  apply IH. now apply perform_keeps_config.
Qed.

(** X14: the configuration never drifts from what the constructor built,
    except in [textQuery].  Whatever the process has been through, every
    start command it ever issued carries the constructor's configuration up
    to [textQuery]: 16-bit linear PCM in at 16000 Hz, MP3 out at 24000 Hz,
    the language and the force-new-conversation flag read at construction,
    empty device identifiers, screen output on. *)
Theorem every_start_command_is_as_constructed
    (g : AppConfig) (acts : list Action) (c : ConversationConfig) :
  In c (start_commands (trace (run Buffer_toString acts (new_world g)))) ->
  with_textQuery None c = constructed_config g /\
  audio c = {| encodingIn := "LINEAR16"; sampleRateIn := 16000;
               encodingOut := "MP3"; sampleRateOut := 24000 |} /\
  lang c = language g /\
  isNew c = forceNewConversation g /\
  deviceModelId c = EmptyString /\ deviceId c = EmptyString /\
  screen_isOn c = true.
Proof.
  intros Hin.
  assert (H0 : config_as_constructed g (new_world g)).
  { repeat split. constructor. }
  destruct (run_config_as_constructed acts H0) as (_ & _ & Hall).
  pose proof (starts_as_constructed c Hall Hin) as Hc.
  split; [exact Hc|].
  repeat split.
  - exact (f_equal audio Hc).
  - exact (f_equal lang Hc).
  - exact (f_equal isNew Hc).
  - exact (f_equal deviceModelId Hc).
  - exact (f_equal deviceId Hc).
  - exact (f_equal screen_isOn Hc).
Qed.

End ConfigurationFixed.

Lemma every_start_command_is_as_constructed_witness :
  let acts := [DoInitialize noop_handlers (construct_ok 7);
               DoInvokeAssistant (Some "weather today"%string)] in
  let c := with_textQuery (Some "weather today"%string)
             (constructed_config (sample_appConfig false)) in
  In c (start_commands (trace (run latin1 acts (new_world (sample_appConfig false))))) /\
  sampleRateIn (audio c) = 16000%Z /\ lang c = "en-US"%string.
Proof.
  assert (Hin : In (with_textQuery (Some "weather today"%string)
                      (constructed_config (sample_appConfig false)))
                  (start_commands
                     (trace (run latin1
                               [DoInitialize noop_handlers (construct_ok 7);
                                DoInvokeAssistant (Some "weather today"%string)]
                               (new_world (sample_appConfig false)))))).
  { simpl. left. reflexivity. }
  split; [exact Hin|].
  destruct (@every_start_command_is_as_constructed latin1 (sample_appConfig false)
              [DoInitialize noop_handlers (construct_ok 7);
               DoInvokeAssistant (Some "weather today"%string)]
              (with_textQuery (Some "weather today"%string)
                 (constructed_config (sample_appConfig false))) Hin)
    as (_ & Haudio & Hlang & _).
  split; [now rewrite Haudio | exact Hlang].
Defined.

(** ** Several OAuth prompts *)

Lemma prompts_trace_and_callbacks (ps : list (CallbackId * string)) (w : World) :
  prompts ps w =
    {| this := this w; appConfig := appConfig w;
       ipcMain := ipcMain w ++ map (fun p => OauthCodeListener (fst p)) ps;
       delegateListeners := delegateListeners w;
       conversationListeners := conversationListeners w;
       trace := trace w ++
                map (fun p => SendToRenderer (showOauthTokenPrompt (snd p))) ps |}.
Proof.
  revert w. induction ps as [|[cb url] ps IH]; intros w; simpl.
  - repeat rewrite app_nil_r. now destruct w.
  - rewrite IH. unfold tokenInputHandler. js_unfold. simpl.
    repeat rewrite <- app_assoc. reflexivity.
Qed.

Lemma oauth_callbacks_listeners (cbs : list CallbackId) :
  oauth_callbacks (map OauthCodeListener cbs) = cbs.
Proof. induction cbs as [|cb cbs IH]; simpl; congruence. Qed.

(** X15: prompts accumulate.  Each prompt publishes its URL and adds its
    callback's listener behind those already there, none is ever removed,
    and one submitted code is then handed to the callback of every prompt
    shown so far, oldest first, including those of earlier
    authentication attempts. *)
Theorem oauth_code_reaches_every_prompt
    (ps : list (CallbackId * string)) (code : string) (w : World) :
  let w' := prompts ps w in
  published (new_effects w w') = map (fun p => showOauthTokenPrompt (snd p)) ps /\
  oauth_callbacks (ipcMain w') = oauth_callbacks (ipcMain w) ++ map fst ps /\
  renderer_emit (oauthCode code) w' =
    (Normal tt,
     log (validations_of code (oauth_callbacks (ipcMain w) ++ map fst ps)) w').
Proof.
  intros w'.
  assert (Hcb : oauth_callbacks (ipcMain w') = oauth_callbacks (ipcMain w) ++ map fst ps).
  { subst w'. rewrite prompts_trace_and_callbacks. simpl.
    rewrite oauth_callbacks_app. f_equal.
    rewrite <- (map_map fst OauthCodeListener). apply oauth_callbacks_listeners. }
  split; [|split; [exact Hcb|]].
  - subst w'. rewrite prompts_trace_and_callbacks.
    erewrite new_effects_app; [|reflexivity].
    clear. induction ps as [|p ps IH]; simpl; congruence.
  - unfold renderer_emit, bind, get. rewrite run_oauthCode. now rewrite Hcb.
Qed.

(** ** Handlers are looked up when the event arrives *)

Section HandlerLookup.

Variable Buffer_toString : Buffer -> string.

(** X16: the listeners read [this.handlers] when they run, not when they
    are registered: after a later successful [initialize] with other
    handlers, the events of a conversation started before it go to the new
    handlers, and the conversation stays the held one. *)
Theorem reinitialize_redirects_running_conversation
    (hs : AssistantServiceEventHandlers)
    (ctor : AuthConfig -> Completion DelegateId) (d : DelegateId)
    (c : ConversationId) (w : World) :
  registered_once c w ->
  ctor (auth (config (this w))) = Normal d ->
  let w' := after (initialize hs ctor w) in
  registered_once c w' /\
  conversation (this w') = conversation (this w) /\
  (forall b, conversation_emit Buffer_toString c (audio_data b) w'
             = (onAudioData hs b, log [CallOnAudioData b] w')) /\
  (forall t, done t = true ->
     outcome (conversation_emit Buffer_toString c (transcription_event t) w')
     = onQuery hs (transcription t)).
Proof.
  intros Hr Hc w'.
  destruct (initialize_success hs ctor w Hc) as (_ & _ & Hh & Hconv & _).
  fold w' in Hh, Hconv.
  assert (Hr' : registered_once c w').
  { subst w'. unfold initialize, try_catch. js_unfold. rewrite Hc. exact Hr. }
  split; [exact Hr'|]. split; [exact Hconv|]. split.
  - intros b. rewrite (emit_audio_data Buffer_toString b Hr'). now rewrite Hh.
  - intros t Ht. rewrite (emit_transcription Buffer_toString t Hr'), Ht.
    unfold outcome; simpl. now rewrite Hh.
Qed.

End HandlerLookup.

Lemma reinitialize_redirects_running_conversation_witness :
  let w := active_world false noop_handlers in
  let w' := after (initialize (throwing_handlers "new"%string) (construct_ok 8) w) in
  registered_once 1 w /\
  construct_ok 8 (auth (config (this w))) = Normal 8 /\
  outcome (conversation_emit latin1 1 (audio_data [x01]) w') = Throw "new"%string.
Proof.
  split; [reflexivity|]. split; [reflexivity|].
  destruct (@reinitialize_redirects_running_conversation latin1
              (throwing_handlers "new"%string) (construct_ok 8) 8 1
              (active_world false noop_handlers) eq_refl eq_refl)
    as (_ & _ & Haudio & _).
  now rewrite (Haudio [x01]).
Defined.
